(** * twitter_downloader_bot: link resolution and media dispatch

    A shallow embedding of [src/main.py].  Python text is [string]
    (characters restricted to 8-bit code points), Python integers are [Z],
    the JSON media descriptors are finite maps from field names to values,
    and everything that touches the network, the chat transport or the
    shared counters runs in a state-and-exception monad.  The outside world
    is a record of oracles: within one run of a handler a request to the
    same address has the same outcome.  Logging ([log_handling], [print])
    and the random ids given to inline results ([uuid4]) are left out. *)

From stdpp Require Import base option list strings gmap.
From Stdlib Require Import Ascii ZArith Lia.

Open Scope string_scope.
Open Scope list_scope.

(** ** Text helpers for the regular expressions *)

Module Re.

Definition code (c : ascii) : N := Ascii.N_of_ascii c.

Definition between (lo hi : N) (c : ascii) : bool :=
  ((lo <=? code c) && (code c <=? hi))%N.

(** [[0-9]] *)
Definition is_digit (c : ascii) : bool := between 48 57 c.

(** [[a-zA-Z0-9]] *)
Definition is_alnum (c : ascii) : bool :=
  between 97 122 c || between 65 90 c || is_digit c.

(** [[a-zA-Z0-9_]] *)
Definition is_word (c : ascii) : bool :=
  is_alnum c || (code c =? 95)%N.

(** [.] without DOTALL: anything but a line feed *)
Definition is_dot (c : ascii) : bool := negb (code c =? 10)%N.

(** A literal at the head of the text; the remaining text on success. *)
Fixpoint lit (p s : string) : option string :=
  match p with
  | EmptyString => Some s
  | String a p' =>
      match s with
      | String b s' => if Ascii.eqb a b then lit p' s' else None
      | EmptyString => None
      end
  end.

(** Greedy [cls{0,n}]: the characters taken and the remaining text. *)
Fixpoint upto (n : nat) (cls : ascii -> bool) (s : string) : string * string :=
  match n, s with
  | S n', String c s' =>
      if cls c then let '(t, r) := upto n' cls s' in (String c t, r)
      else (EmptyString, s)
  | _, _ => (EmptyString, s)
  end.

(** Greedy [cls*]. *)
Definition many (cls : ascii -> bool) (s : string) : string * string :=
  upto (String.length s) cls s.

(** Ordered choice, as a backtracking matcher tries its alternatives. *)
Definition orelse {A} (x y : option A) : option A :=
  match x with Some _ => x | None => y end.

(** Sequencing of two matchers: the second runs on what the first left. *)
Definition andthen {A B} (x : option A) (f : A -> option B) : option B :=
  match x with Some a => f a | None => None end.

Infix ">>>" := andthen (at level 50, left associativity).

(** [t\.co/[a-zA-Z0-9]+] at the head of the text: the whole match and the
    remaining text. *)
Definition tco_at (s : string) : option (string * string) :=
  match lit "t.co/" s with
  | Some s1 =>
      let '(w, r) := many is_alnum s1 in
      match w with
      | EmptyString => None
      | _ => Some ("t.co/" +:+ w, r)
      end
  | None => None
  end.

(** [/([0-9]{1,20})] *)
Definition slash_id (s : string) : option (string * string) :=
  match lit "/" s with
  | Some s1 =>
      let '(d, r) := upto 20 is_digit s1 in
      match d with
      | EmptyString => None
      | _ => Some (d, r)
      end
  | None => None
  end.

(** [/(?:web|status(?:es)?)/([0-9]{1,20})]: the alternatives in the order
    the matcher tries them ([es] first, being optional and greedy). *)
Definition kind_id (s : string) : option (string * string) :=
  match lit "/" s with
  | Some s1 =>
      orelse (lit "web" s1 >>> slash_id)
        (orelse (lit "statuses" s1 >>> slash_id)
                (lit "status" s1 >>> slash_id))
  | None => None
  end.

(** [.{0,n}] followed by [kind_id], longest run first. *)
Fixpoint dots (n : nat) (s : string) : option (string * string) :=
  match n, s with
  | S n', String c s' =>
      if is_dot c then orelse (dots n' s') (kind_id s) else kind_id s
  | _, _ => kind_id s
  end.

(** [(?:twitter|x)\.com/.{1,15}/(?:web|status(?:es)?)/([0-9]{1,20})] at
    the head of the text: the captured group and the remaining text. *)
Definition id_at (s : string) : option (string * string) :=
  let user s1 :=
    match s1 with
    | String c s2 => if is_dot c then dots 14 s2 else None
    | EmptyString => None
    end in
  orelse (lit "twitter" s >>> lit ".com/" >>> user)
         (lit "x" s >>> lit ".com/" >>> user).

(** [re.findall]: leftmost matches, not overlapping.  [skip] counts the
    characters of the last match that are still to be passed over. *)
Fixpoint findall_from (at_ : string -> option (string * string))
    (skip : nat) (s : string) : list string :=
  match s with
  | EmptyString => []
  | String _ s' =>
      match skip with
      | S k => findall_from at_ k s'
      | O =>
          match at_ s with
          | Some (g, r) =>
              g :: findall_from at_ (String.length s - String.length r - 1) s'
          | None => findall_from at_ 0 s'
          end
      end
  end.

Definition findall_tco (s : string) : list string := findall_from tco_at 0 s.
Definition findall_ids (s : string) : list string := findall_from id_at 0 s.

(** [re.match(CORRECT_TWITTER_PATTERN, url)] as a truth value:
    [http(?:s)?:\/\/(?:www)?(twitter|x)\.com\/([a-zA-Z0-9_]+)/(status|web)/\d+]
    anchored at the start of the text. *)
Definition correct_twitter_pattern (url : string) : bool :=
  let digits s :=
    match s with
    | String c _ => is_digit c
    | EmptyString => false
    end in
  let kind s :=
    match orelse (lit "status" s) (lit "web" s) >>> lit "/" with
    | Some s1 => digits s1
    | None => false
    end in
  let user s :=
    let '(w, r) := many is_word s in
    match w, lit "/" r with
    | String _ _, Some s1 => kind s1
    | _, _ => false
    end in
  let host s :=
    match orelse (lit "twitter" s) (lit "x" s) >>> lit ".com/" with
    | Some s1 => user s1
    | None => false
    end in
  let scheme s :=
    match lit "://" s with
    | Some s1 =>
        match lit "www" s1 with
        | Some s2 => host s2 || host s1
        | None => host s1
        end
    | None => false
    end in
  match lit "http" url with
  | Some s0 =>
      match lit "s" s0 with
      | Some s1 => scheme s1 || scheme s0
      | None => scheme s0
      end
  | None => false
  end.

End Re.

(** ** Exceptions, shared state and the monad of the handlers *)

(** The exception classes the program meets. *)
Inductive exn : Type :=
  | HTTPError | ConnectionError | KeyError | ValueError
  | TypeError | AttributeError | IndexError | BadRequest.

Inductive result (A : Type) : Type :=
  | Ok (a : A)
  | Raise (e : exn).
Arguments Ok {A} a.
Arguments Raise {A} e.

(** [InlineQueryResult*] objects, without their random [id]. *)
Inductive InlineQueryResult : Type :=
  | InlineQueryResultArticle (title input_message_content : string)
  | InlineQueryResultPhoto (photo_url thumbnail_url : string)
  | InlineQueryResultGif (thumbnail_url gif_url : string)
  | InlineQueryResultVideo (thumbnail_url video_url title mime_type : string).

(** Requests to the chat transport ([quote] and preview flags left out). *)
Inductive action : Type :=
  | reply_text (text : string)
  | reply_video (video : string)
  | reply_animation (animation : string)
  | reply_media_group (media : list string)
  | delete
  | answer (results : list InlineQueryResult).

(** A media descriptor is the JSON object of the metadata service. *)
Abbreviation descriptor := (gmap string string).

(** [ContextCounters], the three counter names. *)
Inductive ContextCounters : Type :=
  | commands_handled | messages_handled | media_downloaded.

#[global] Instance ContextCounters_eq_dec : EqDecision ContextCounters.
Proof. solve_decision. Defined.

(** The ['stats'] dictionary: its keys are the three counter names, so it
    is a total function on them. *)
Abbreviation stats_dict := (ContextCounters -> Z).

(** [context.bot_data]: the ['stats'] dictionary when it exists.  [calls]
    is the trace of transport requests issued so far, each with whether the
    transport accepted it. *)
Record state : Type := mkState {
  stats : option stats_dict;
  calls : list (action * bool)
}.

(** What a [requests] call can come to: a connection that fails before
    any response, or a response with a status (successful or not) and a
    payload.  The other exceptions the library raises before a response
    (a URL it cannot use, for one) are not part of the model. *)
Inductive http (A : Type) : Type :=
  | NoResponse
  | Response (ok : bool) (payload : A).
Arguments NoResponse {A}.
Arguments Response {A} ok payload.

(** The [Content-Length] header of a response. *)
Inductive content_length : Type :=
  | Missing
  | Malformed
  | Length (n : Z).

(** Everything outside the program: the network, the metadata service, the
    chat transport and [urllib.parse]. *)
Record World : Type := mkWorld {
  (** [requests.get(link).url]; [None] when the request raises *)
  redirect : string -> option string;
  (** the metadata service for a tweet id; the payload is the
      [media_extended] field of the body, [None] when the body lacks it *)
  api : string -> http (option (list descriptor));
  (** [requests.head(url)] *)
  head_probe : string -> http unit;
  (** [requests.get(url, stream=True)] and its [Content-Length] *)
  video_probe : string -> http content_length;
  (** [urlsplit(url)._replace(query=q).geturl()]; [None] when [urlsplit]
      raises [ValueError] *)
  replace_query : string -> string -> option string;
  (** whether the transport accepts a request ([BadRequest] otherwise) *)
  accepts : action -> bool
}.

(** The part of an update the handlers read: whether it carries a message
    ([effective_message] is not [None]) and the inline query text. *)
Record Update : Type := mkUpdate {
  effective_message : bool;
  inline_query_text : option string
}.

Definition M (A : Type) : Type := state -> result A * state.

Definition ret {A} (a : A) : M A := fun s => (Ok a, s).
Definition raise {A} (e : exn) : M A := fun s => (Raise e, s).
Definition bind {A B} (m : M A) (k : A -> M B) : M B :=
  fun s =>
    match m s with
    | (Ok a, s') => k a s'
    | (Raise e, s') => (Raise e, s')
    end.
Definition lift {A} (r : result A) : M A := fun s => (r, s).

(** [try: m except (classes): h] *)
Definition try_except {A} (m : M A) (classes : exn -> bool) (h : M A) : M A :=
  fun s =>
    match m s with
    | (Raise e, s') => if classes e then h s' else (Raise e, s')
    | r => r
    end.

Notation "'let*' x ':=' c1 'in' c2" := (bind c1 (fun x => c2))
  (at level 10, x pattern, c1 at level 100, c2 at level 200).

(** [for x in xs: body] *)
Fixpoint for_each {A} (xs : list A) (body : A -> M unit) : M unit :=
  match xs with
  | [] => ret tt
  | x :: xs' => let* _ := body x in for_each xs' body
  end.

(** A loop carrying one variable (the list it appends to, or the variable
    it reassigns). *)
Fixpoint for_acc {A B} (xs : list A) (acc : B) (body : A -> B -> M B) : M B :=
  match xs with
  | [] => ret acc
  | x :: xs' => let* acc' := body x acc in for_acc xs' acc' body
  end.

(** [d[key]] *)
Definition getitem {V} (d : gmap string V) (key : string) : result V :=
  match d !! key with
  | Some v => Ok v
  | None => Raise KeyError
  end.

(** An awaited call on [update.effective_message]. *)
Definition tg (W : World) (u : Update) (a : action) : M unit :=
  fun s =>
    if effective_message u then
      let ok := accepts W a in
      (if ok then Ok tt else Raise BadRequest,
       mkState (stats s) (calls s ++ [(a, ok)]))
    else (Raise AttributeError, s).

(** A call on [update.effective_message] that is never awaited: the
    attribute is looked up, the coroutine is dropped. *)
Definition tg_not_awaited (u : Update) : M unit :=
  if effective_message u then ret tt else raise AttributeError.

(** ** Counters *)

Definition init_stats : M unit :=
  fun s =>
    (Ok tt,
     mkState (Some (fun k => match k with
                             | media_downloaded => 0
                             | messages_handled => 0
                             | commands_handled => 0
                             end)%Z)
             (calls s)).

Definition increase_context_counter (counter_name : ContextCounters) : M unit :=
  let* _ := (fun s => match stats s with
                      | None => init_stats s
                      | Some _ => ret tt s
                      end) in
  fun s =>
    match stats s with
    | Some d =>
        (Ok tt,
         mkState (Some (fun k => if decide (k = counter_name)
                                 then (d k + 1)%Z else d k))
                 (calls s))
    | None => (Raise KeyError, s)
    end.

(** ** Identifier extraction *)

Definition nl : string := String (Ascii.ascii_of_nat 10) EmptyString.

(** The loop over the [t.co] links: each link that resolves adds a line
    with its destination, the others add nothing. *)
Definition unshortened_links (W : World) (text : string) : string :=
  fold_left
    (fun acc link =>
       match redirect W ("https://" +:+ link) with
       | Some unshortened_link => acc +:+ nl +:+ unshortened_link
       | None => acc
       end)
    (Re.findall_tco text) EmptyString.

(** [list(dict.fromkeys(keys))]: a dictionary keeps its keys in insertion
    order and a key already present keeps its place. *)
Definition fromkeys (keys : list string) : list string :=
  fold_left (fun (d : list string) k => if decide (k ∈ d) then d else (d ++ [k])%list)
    keys [].

(** The matches the identifier pattern finds in the text extended with the
    resolved links. *)
Definition matched_ids (W : World) (text : string) : list string :=
  Re.findall_ids (text +:+ unshortened_links W text).

Definition extract_tweet_ids (W : World) (text : string) : option (list string) :=
  let tweet_ids := fromkeys (matched_ids W text) in
  match tweet_ids with
  | [] => None
  | _ => Some tweet_ids
  end.

(** ** Metadata and classification *)

Definition scrape_media (W : World) (tweet_id : string) : result (list descriptor) :=
  match api W tweet_id with
  | NoResponse => Raise ConnectionError
  | Response false _ => Raise HTTPError
  | Response true None => Raise KeyError
  | Response true (Some media_extended) => Ok media_extended
  end.

(** [[media for media in tweet_media if media["type"] == ty]] *)
Fixpoint of_type (ty : string) (tweet_media : list descriptor) : result (list descriptor) :=
  match tweet_media with
  | [] => Ok []
  | media :: rest =>
      match getitem media "type" with
      | Raise e => Raise e
      | Ok t =>
          match of_type ty rest with
          | Raise e => Raise e
          | Ok l => Ok (if decide (t = ty) then media :: l else l)
          end
      end
  end.

Definition get_media (tweet_media : list descriptor)
  : result (list descriptor * list descriptor * list descriptor) :=
  match of_type "image" tweet_media with
  | Raise e => Raise e
  | Ok photos =>
      match of_type "gif" tweet_media with
      | Raise e => Raise e
      | Ok gifs =>
          match of_type "video" tweet_media with
          | Raise e => Raise e
          | Ok videos => Ok (photos, gifs, videos)
          end
      end
  end.

(** ** Quality upgrade of photos *)

Definition get_photo_url (W : World) (url : string) : result string :=
  match replace_query W url "format=jpg&name=orig" with
  | None => Raise ValueError
  | Some new_url =>
      match head_probe W new_url with
      | NoResponse => Raise ConnectionError
      | Response true _ => Ok new_url
      | Response false _ => Ok url          (* except requests.HTTPError *)
      end
  end.

(** ** Size-gated videos *)

Definition size_limit : Z := 20 * 1024 * 1024.

(** The head of both [try] blocks: the request, [raise_for_status] and
    [int(request.headers['Content-Length'])]. *)
Definition video_size (W : World) (video_url : string) : result Z :=
  match video_probe W video_url with
  | NoResponse => Raise ConnectionError
  | Response false _ => Raise HTTPError
  | Response true Missing => Raise KeyError
  | Response true Malformed => Raise ValueError
  | Response true (Length n) => Ok n
  end.

(** [except (requests.HTTPError, KeyError, telegram.error.BadRequest,
    requests.exceptions.ConnectionError)] *)
Definition video_errors (e : exn) : bool :=
  match e with
  | HTTPError | KeyError | BadRequest | ConnectionError => true
  | _ => false
  end.

Definition too_large_text (video_url : string) : string :=
  "Video is too large for Telegram upload. Link:" +:+ nl +:+ video_url.

Definition error_text (video_url : string) : string :=
  "Error occurred when trying to send video. Direct link:" +:+ nl +:+ video_url.

(** ** Inline results *)

Definition get_photos_body (W : World) (photo : descriptor)
    (photo_group : list InlineQueryResult) : M (list InlineQueryResult) :=
  let* photo_url := lift (getitem photo "url") in
  let* final_url := lift (get_photo_url W photo_url) in
  let photo_group := (photo_group ++ [InlineQueryResultPhoto final_url final_url])%list in
  let* _ := increase_context_counter media_downloaded in
  ret photo_group.

Definition get_photos (W : World) (twitter_photos : list descriptor)
  : M (list InlineQueryResult) :=
  for_acc twitter_photos [] (get_photos_body W).

Definition get_gifs_body (gif : descriptor)
    (gif_group : list InlineQueryResult) : M (list InlineQueryResult) :=
  let* gif_url := lift (getitem gif "url") in
  let* thumbnail_url := lift (getitem gif "thumbnail_url") in
  let gif_group := (gif_group ++ [InlineQueryResultGif thumbnail_url gif_url])%list in
  let* _ := increase_context_counter media_downloaded in
  ret gif_group.

Definition get_gifs (twitter_gifs : list descriptor) : M (list InlineQueryResult) :=
  for_acc twitter_gifs [] get_gifs_body.

Definition get_videos_body (W : World) (u : Update) (video : descriptor)
    (video_group : list InlineQueryResult) : M (list InlineQueryResult) :=
  let* video_url := lift (getitem video "url") in
  let* video_group :=
    try_except
      (let* video_size := lift (video_size W video_url) in
       if (video_size <=? size_limit)%Z then
         let* thumbnail_url := lift (getitem video "thumbnail_url") in
         ret (video_group ++
              [InlineQueryResultVideo thumbnail_url video_url "Video" "video/mp4"])%list
       else
         ret (video_group ++
              [InlineQueryResultArticle "Video too big!" "Video too big"])%list)
      video_errors
      (let* _ := tg_not_awaited u in ret video_group) in
  let* _ := increase_context_counter media_downloaded in
  ret video_group.

Definition get_videos (W : World) (u : Update) (twitter_videos : list descriptor)
  : M (list InlineQueryResult) :=
  for_acc twitter_videos [] (get_videos_body W u).

Definition get_media_for_inline (W : World) (u : Update) (tweet_media : list descriptor)
  : M (list InlineQueryResult) :=
  let* (photos, gifs, videos) := lift (get_media tweet_media) in
  match photos, gifs, videos with
  | _ :: _, _, _ => get_photos W photos
  | [], _ :: _, _ => get_gifs gifs
  | [], [], _ :: _ => get_videos W u videos
  | [], [], [] => ret []
  end.

(** ** Command replies *)

Definition command_send_videos_body (W : World) (u : Update) (video : descriptor)
  : M unit :=
  let* video_url := lift (getitem video "url") in
  let* _ :=
    try_except
      (let* video_size := lift (video_size W video_url) in
       if (video_size <=? size_limit)%Z then tg W u (reply_video video_url)
       else tg W u (reply_text (too_large_text video_url)))
      video_errors
      (tg W u (reply_text (error_text video_url))) in
  increase_context_counter media_downloaded.

Definition command_send_videos (W : World) (u : Update) (videos : list descriptor)
  : M unit :=
  for_each videos (command_send_videos_body W u).

Definition command_send_gifs (W : World) (u : Update) (gifs : list descriptor)
  : M unit :=
  for_each gifs (fun gif =>
    let* gif_url := lift (getitem gif "url") in
    let* _ := increase_context_counter media_downloaded in
    tg W u (reply_animation gif_url)).

Definition command_send_photos (W : World) (u : Update) (photos : list descriptor)
  : M unit :=
  let* photo_group :=
    for_acc photos [] (fun p photo_group =>
      let* photo_url := lift (getitem p "url") in
      let* media := lift (get_photo_url W photo_url) in
      let* _ := increase_context_counter media_downloaded in
      ret (photo_group ++ [media])%list) in
  tg W u (reply_media_group photo_group).

Definition invalid_url_text : string :=
  "That's not a valid twitter URL or I couldn't find any media on it".

Definition grab_command_body (W : World) (u : Update) (tweet_id : string) : M unit :=
  let* media := lift (scrape_media W tweet_id) in
  let* (photos, gifs, videos) := lift (get_media media) in
  let* _ := match photos with
            | [] => ret tt
            | _ => command_send_photos W u photos
            end in
  let* _ := match gifs with
            | [] => ret tt
            | _ => command_send_gifs W u gifs
            end in
  match videos with
  | [] => ret tt
  | _ => command_send_videos W u videos
  end.

(** [args] is [context.args]. *)
Definition grab_command (W : World) (u : Update) (args : list string) : M unit :=
  let* url := match args with
              | url :: _ => ret url
              | [] => raise IndexError
              end in
  let* _ :=
    if Re.correct_twitter_pattern url then
      let tweet_ids := extract_tweet_ids W url in
      let* _ := match tweet_ids with
                | Some _ => tg W u (reply_text ("tweet: " +:+ url))
                | None => ret tt
                end in
      let* _ := match tweet_ids with
                | Some ids => for_each ids (grab_command_body W u)
                | None => raise TypeError      (* iterating over None *)
                end in
      tg W u delete
    else tg W u (reply_text invalid_url_text) in
  increase_context_counter commands_handled.

(** ** Inline queries *)

Definition nothing_found : InlineQueryResult :=
  InlineQueryResultArticle "There's nothing I can get for you there!"
                           "There's nothing I can get for you there!".

(** The body of the loop over the identifiers; [results] is the variable
    the loop reassigns. *)
Definition inline_query_body (W : World) (u : Update) (tweet_id : string)
    (results : list InlineQueryResult) : M (list InlineQueryResult) :=
  try_except
    (let* media := lift (scrape_media W tweet_id) in
     match media with
     | _ :: _ => get_media_for_inline W u media
     | [] => ret results
     end)
    (fun _ => true)                            (* except Exception *)
    (ret results).

(** [update.inline_query.answer(results)] *)
Definition tg_answer (W : World) (results : list InlineQueryResult) : M unit :=
  fun s =>
    let ok := accepts W (answer results) in
    (if ok then Ok tt else Raise BadRequest,
     mkState (stats s) (calls s ++ [(answer results, ok)])).

Definition inline_query (W : World) (u : Update) : M unit :=
  match inline_query_text u with
  | None => raise AttributeError
  | Some query =>
      if decide (query = "") then ret tt      (* empty query should not be handled *)
      else
        match extract_tweet_ids W query with
        | None => raise TypeError              (* iterating over None *)
        | Some tweet_ids =>
            let* results := for_acc tweet_ids [] (inline_query_body W u) in
            let results := match results with
                           | [] => [nothing_found]
                           | _ => results
                           end in
            let* _ := increase_context_counter messages_handled in
            tg_answer W results
        end
  end.

(** ** Operator commands *)

Definition reset_stats_command (W : World) (u : Update) : M unit :=
  let* _ := init_stats in
  tg W u (reply_text "Bot stats have been reset").

Definition donate_command (W : World) (u : Update) : M unit :=
  tg W u (reply_text ("If you like the bot and want to support me, please buy me a coffee!"
                      +:+ "https://www.buymeacoffee.com/benitob")).

(** ** A concrete world for running the handlers *)

Module Sample.

Definition photo (url : string) : descriptor :=
  <["type" := "image"]> (<["url" := url]> ∅).

Definition video (url : string) : descriptor :=
  <["type" := "video"]> (<["url" := url]> (<["thumbnail_url" := url +:+ ".jpg"]> ∅)).

(** Tweets 1 and 2 carry one photo each, 3 a video of exactly 20 MiB, 4 a
    video one byte larger, 5 has no media, 6 a photo whose host is down;
    the service answers 404 for every other id.  The link [t.co/abc] leads
    to tweet 1. *)
Definition W : World := {|
  redirect link :=
    if decide (link = "https://t.co/abc") then Some "https://x.com/alice/status/1"
    else None;
  api tweet_id :=
    if decide (tweet_id = "1") then Response true (Some [photo "https://pbs.twimg.com/media/one.jpg"])
    else if decide (tweet_id = "2") then Response true (Some [photo "https://pbs.twimg.com/media/two.jpg"])
    else if decide (tweet_id = "3") then Response true (Some [video "https://video.twimg.com/fits.mp4"])
    else if decide (tweet_id = "4") then Response true (Some [video "https://video.twimg.com/big.mp4"])
    else if decide (tweet_id = "5") then Response true (Some [])
    else if decide (tweet_id = "6") then Response true (Some [photo "https://pbs.twimg.com/media/down.jpg"])
    else Response false None;
  head_probe url :=
    if decide (url = "https://pbs.twimg.com/media/one.jpg?format=jpg&name=orig")
    then Response true tt
    else if decide (url = "https://pbs.twimg.com/media/down.jpg?format=jpg&name=orig")
    then NoResponse
    else Response false tt;
  video_probe url :=
    if decide (url = "https://video.twimg.com/fits.mp4") then Response true (Length (20 * 1024 * 1024))
    else if decide (url = "https://video.twimg.com/big.mp4") then Response true (Length (20 * 1024 * 1024 + 1))
    else Response false Missing;
  replace_query url q := Some (url +:+ "?" +:+ q);
  accepts _ := true
|}.

(** An update that carries a command message. *)
Definition command_update : Update :=
  {| effective_message := true; inline_query_text := None |}.

(** An update that carries an inline query and no message. *)
Definition inline_update (query : string) : Update :=
  {| effective_message := false; inline_query_text := Some query |}.

(** The state before the first counter is touched. *)
Definition s0 : state := mkState None [].

End Sample.

(** ** A second world: a tweet with two videos, one out of reach *)

Module Scenario.

(** As [Sample.W], with tweet 7 carrying a video of 20 MiB and a video
    whose host answers with an error status. *)
Definition W : World := {|
  redirect := redirect Sample.W;
  api tweet_id :=
    if decide (tweet_id = "7")
    then Response true (Some [Sample.video "https://video.twimg.com/fits.mp4";
                              Sample.video "https://video.twimg.com/gone.mp4"])
    else api Sample.W tweet_id;
  head_probe := head_probe Sample.W;
  video_probe := video_probe Sample.W;
  replace_query := replace_query Sample.W;
  accepts := accepts Sample.W
|}.

End Scenario.

(** ** Vocabulary of the statements *)

(** Whatever stands earlier in the result was first met earlier in the
    input: its first occurrence precedes every occurrence of what stands
    later. *)
Definition first_seen_order (keys ids : list string) : Prop :=
  ∀ i j a b, ids !! i = Some a → ids !! j = Some b → i < j →
    ∃ p, keys !! p = Some a ∧ ∀ q, keys !! q = Some b → p < q.

(** The descriptor declares the type [ty]. *)
Definition has_type (ty : string) (media : descriptor) : Prop :=
  media !! "type" = Some ty.

#[global] Instance has_type_dec ty media : Decision (has_type ty media).
Proof. unfold has_type. apply _. Defined.

(** The descriptor declares one of the three types the classifier knows. *)
Definition recognised (media : descriptor) : Prop :=
  has_type "image" media ∨ has_type "gif" media ∨ has_type "video" media.

#[global] Instance recognised_dec media : Decision (recognised media).
Proof. unfold recognised. apply _. Defined.

(** The counter [k] as a reader of the shared state sees it: zero while
    the ['stats'] dictionary does not exist. *)
Definition counter (s : state) (k : ContextCounters) : Z :=
  match stats s with
  | Some d => d k
  | None => 0%Z
  end.

(** A computation that issues no request to the transport. *)
Definition silent {A} (m : M A) : Prop := ∀ s, calls (snd (m s)) = calls s.

(** The identifier's metadata is fetched and is not empty, and resolving
    it completes with the list [r] of inline results. *)
Definition yields (W : World) (u : Update) (tweet_id : string)
    (r : list InlineQueryResult) : Prop :=
  ∃ media, scrape_media W tweet_id = Ok media ∧ media ≠ []
           ∧ ∀ s, fst (get_media_for_inline W u media s) = Ok r.

(** The identifier brings nothing: its fetch fails, or it has no media, or
    resolving its media raises. *)
Definition skipped (W : World) (u : Update) (tweet_id : string) : Prop :=
  (∃ e, scrape_media W tweet_id = Raise e)
  ∨ scrape_media W tweet_id = Ok []
  ∨ ∃ media, scrape_media W tweet_id = Ok media
             ∧ ∀ s, ∃ e, fst (get_media_for_inline W u media s) = Raise e.

(** Every character of the text is in the class. *)
Fixpoint all_chars (cls : ascii -> bool) (s : string) : bool :=
  match s with
  | EmptyString => true
  | String c s' => cls c && all_chars cls s'
  end.

(** An identifier as the pattern captures it: 1 to 20 decimal digits. *)
Definition well_formed_id (g : string) : Prop :=
  (1 ≤ String.length g ≤ 20)%nat ∧ all_chars Re.is_digit g = true.

(** Between two states, [media_downloaded] went up by [n] and the other
    two counters stayed. *)
Definition counted (n : Z) (s s' : state) : Prop :=
  counter s' media_downloaded = (counter s media_downloaded + n)%Z
  ∧ counter s' commands_handled = counter s commands_handled
  ∧ counter s' messages_handled = counter s messages_handled.

(** Between two states, [media_downloaded] did not go down and the other
    two counters stayed. *)
Definition media_grows (s s' : state) : Prop :=
  ∃ n, (0 ≤ n)%Z ∧ counted n s s'.

(** Every run of the computation relates the state before to the state
    after, whether it returns or raises. *)
Definition keeps (R : state → state → Prop) {A} (m : M A) : Prop :=
  ∀ s, R s (snd (m s)).

(** The photo descriptor has a URL and the quality upgrader returns
    [final] for it. *)
Definition photo_resolves (W : World) (photo : descriptor) (final : string) : Prop :=
  ∃ url, photo !! "url" = Some url ∧ get_photo_url W url = Ok final.

(** The photo descriptor has no URL, or the quality upgrader raises. *)
Definition photo_fails (W : World) (photo : descriptor) (e : exn) : Prop :=
  (photo !! "url" = None ∧ e = KeyError)
  ∨ ∃ url, photo !! "url" = Some url ∧ get_photo_url W url = Raise e.

(** The inline result built for a GIF descriptor that has both fields. *)
Definition gif_result (gif : descriptor) (r : InlineQueryResult) : Prop :=
  ∃ url thumbnail_url,
    gif !! "url" = Some url ∧ gif !! "thumbnail_url" = Some thumbnail_url
    ∧ r = InlineQueryResultGif thumbnail_url url.

(** The size probe of the video fails with an exception the video
    resolvers catch: no response, an unsuccessful status, or no
    [Content-Length] header. *)
Definition probe_fails (W : World) (video_url : string) : Prop :=
  ∃ e, video_size W video_url = Raise e ∧ video_errors e = true.

(** The request a command reply issues first for a video, by the outcome
    of its size probe; none when the probe raises what is not caught. *)
Definition video_request (W : World) (video_url : string) : option action :=
  match video_size W video_url with
  | Ok n =>
      Some (if (n <=? size_limit)%Z then reply_video video_url
            else reply_text (too_large_text video_url))
  | Raise e =>
      if video_errors e then Some (reply_text (error_text video_url)) else None
  end.

(** The request shows the URL: it sends the video itself, or a text that
    ends with the URL. *)
Definition carries_url (a : action) (video_url : string) : Prop :=
  a = reply_video video_url ∨ ∃ notice, a = reply_text (notice +:+ video_url).

(** The inline result for a video whose size probe reports a length: the
    video with its thumbnail up to the limit, the "too big" article above
    it. *)
Definition video_result (W : World) (video : descriptor) (r : InlineQueryResult) : Prop :=
  ∃ video_url n,
    video !! "url" = Some video_url
    ∧ video_size W video_url = Ok n
    ∧ if (n <=? size_limit)%Z
      then ∃ thumbnail_url,
             video !! "thumbnail_url" = Some thumbnail_url
             ∧ r = InlineQueryResultVideo thumbnail_url video_url "Video" "video/mp4"
      else r = InlineQueryResultArticle "Video too big!" "Video too big".

(** Any character but the full stop. *)
Definition not_dot (c : ascii) : bool := negb (Ascii.eqb c ".").

(** A link that ends a line: what stands before it on the line, the host,
    the user name, the path element and the identifier. *)
Record line : Type := mkLine {
  l_prefix : string;
  l_host : string;
  l_user : string;
  l_kind : string;
  l_id : string
}.



(** The text holds [twitter.com/] or [x.com/] somewhere. *)
Fixpoint has_host (s : string) : bool :=
  match s with
  | EmptyString => false
  | String _ s' =>
      match Re.lit "twitter.com/" s, Re.lit "x.com/" s with
      | None, None => has_host s'
      | _, _ => true
      end
  end.

(** The line is some text that names no host, followed by one link: a
    host, a user name of 1 to 15 word characters, a path element the
    pattern knows and an identifier of 1 to 20 digits. *)
Definition link_line (l : line) : Prop :=
  has_host (l_prefix l) = false
  ∧ (l_host l = "twitter" ∨ l_host l = "x")
  ∧ all_chars Re.is_word (l_user l) = true
  ∧ (1 ≤ String.length (l_user l) ≤ 15)%nat
  ∧ (l_kind l = "status" ∨ l_kind l = "statuses" ∨ l_kind l = "web")
  ∧ well_formed_id (l_id l).


#[global] Instance link_line_dec (l : line) : Decision (link_line l).
Proof. unfold link_line, well_formed_id. apply _. Defined.

(** * Properties *)

(** ** The identifier extractor *)

Section Fromkeys.

Implicit Types (keys d : list string) (k x : string).

Lemma fromkeys_snoc keys k :
  fromkeys (keys ++ [k]) =
  if decide (k ∈ fromkeys keys) then fromkeys keys else fromkeys keys ++ [k].
Proof. unfold fromkeys. by rewrite fold_left_app. Qed.

Lemma fromkeys_elem_of keys x : x ∈ fromkeys keys ↔ x ∈ keys.
Proof.
  induction keys as [|k keys IH] using rev_ind.
  - done.
  - rewrite fromkeys_snoc. case_decide as Hk.
    + rewrite elem_of_app, list_elem_of_singleton, IH.
      split; [auto|]. intros [?| ->]; [done|]. by apply IH.
    + by rewrite !elem_of_app, IH.
Qed.

Lemma fromkeys_NoDup keys : NoDup (fromkeys keys).
Proof.
  induction keys as [|k keys IH] using rev_ind.
  - constructor.
  - rewrite fromkeys_snoc. case_decide as Hk; [done|].
    apply NoDup_app. split_and!; [done| |apply NoDup_singleton].
    intros x Hx ->%list_elem_of_singleton. done.
Qed.

Lemma fromkeys_order keys : first_seen_order keys (fromkeys keys).
Proof.
  induction keys as [|k keys IH] using rev_ind.
  - intros i j a b Hi. done.
  - assert (Hold : ∀ i j a b, fromkeys keys !! i = Some a →
               fromkeys keys !! j = Some b → i < j →
               ∃ p, (keys ++ [k]) !! p = Some a ∧
                    ∀ q, (keys ++ [k]) !! q = Some b → p < q).
    { intros i j a b Hi Hj Hij.
      destruct (IH i j a b Hi Hj Hij) as (p & Hp & Hmin).
      pose proof (lookup_lt_Some _ _ _ Hp) as Hlt.
      exists p. split; [by rewrite lookup_app_l|].
      intros q Hq. destruct (decide (q < length keys)) as [Hq'|Hq'].
      - rewrite lookup_app_l in Hq by done. by apply Hmin.
      - lia. }
    rewrite fromkeys_snoc. case_decide as Hk; [exact Hold|].
    intros i j a b Hi Hj Hij.
    destruct (decide (j < length (fromkeys keys))) as [Hj'|Hj'].
    + rewrite lookup_app_l in Hj by done.
      rewrite lookup_app_l in Hi by lia. eauto.
    + pose proof (lookup_lt_Some _ _ _ Hj) as Hlen.
      rewrite length_app in Hlen. simpl in Hlen.
      assert (j = length (fromkeys keys)) as -> by lia.
      rewrite list_lookup_middle in Hj by done. injection Hj as <-.
      rewrite lookup_app_l in Hi by done.
      assert (a ∈ keys) as [p Hp]%list_elem_of_lookup.
      { apply fromkeys_elem_of. apply list_elem_of_lookup. eauto. }
      pose proof (lookup_lt_Some _ _ _ Hp) as Hlt.
      exists p. split; [by rewrite lookup_app_l|].
      intros q Hq. destruct (decide (q < length keys)) as [Hq'|Hq']; [|lia].
      rewrite lookup_app_l in Hq by done.
      exfalso. apply Hk, fromkeys_elem_of, list_elem_of_lookup. eauto.
Qed.

Lemma fromkeys_nil_inv keys : fromkeys keys = [] → keys = [].
Proof.
  intros H. destruct keys as [|k keys]; [done|].
  assert (k ∈ fromkeys (k :: keys)) as Hk by (apply fromkeys_elem_of; left).
  rewrite H in Hk. by apply elem_of_nil in Hk.
Qed.

Lemma fromkeys_repeated keys x :
  keys ≠ [] → Forall (eq x) keys → fromkeys keys = [x].
Proof.
  intros Hne Hall.
  pose proof (fromkeys_NoDup keys) as Hnd.
  assert (Hin : ∀ y, y ∈ fromkeys keys → y = x).
  { intros y Hy. apply (proj1 (fromkeys_elem_of _ _)) in Hy.
    rewrite list.Forall_forall in Hall. symmetry. by apply Hall. }
  destruct (fromkeys keys) as [|a [|b l]] eqn:E.
  - by apply fromkeys_nil_inv in E.
  - f_equal. apply Hin. left.
  - exfalso. assert (a = b) as ->.
    { rewrite (Hin a), (Hin b); [done| |]; set_solver. }
    apply NoDup_cons in Hnd as [Hnd _]. apply Hnd. left.
Qed.

End Fromkeys.

(** The deduplication step on the matches of the pattern.  When the
    matches are one identifier repeated, the result has length 1; in
    general the result has no repeats, holds exactly the matched
    identifiers (so as many as there are distinct ones), and lists them in
    the order of their first match. *)
Lemma extract_tweet_ids_fromkeys (W : World) (text : string) :
  let ms := matched_ids W text in
  (∀ id, ms ≠ [] → Forall (eq id) ms → extract_tweet_ids W text = Some [id])
  ∧ (ms ≠ [] →
     ∃ ids, extract_tweet_ids W text = Some ids
       ∧ NoDup ids
       ∧ (∀ x, x ∈ ids ↔ x ∈ ms)
       ∧ first_seen_order ms ids
       ∧ ∀ ks, NoDup ks → (∀ x, x ∈ ks ↔ x ∈ ms) →
               ids ≡ₚ ks ∧ length ids = length ks).
Proof.
  intros ms. unfold extract_tweet_ids. fold ms. split.
  - intros id Hne Hall. by rewrite (fromkeys_repeated ms id).
  - intros Hne. exists (fromkeys ms).
    destruct (fromkeys ms) as [|a l] eqn:E.
    { by apply fromkeys_nil_inv in E. }
    rewrite <- E. split_and!.
    + done.
    + apply fromkeys_NoDup.
    + apply fromkeys_elem_of.
    + apply fromkeys_order.
    + intros ks Hks Hsame.
      assert (fromkeys ms ≡ₚ ks) as HP.
      { apply NoDup_Permutation; [apply fromkeys_NoDup|done|].
        intros x. by rewrite fromkeys_elem_of, Hsame. }
      split; [done|]. by rewrite HP.
Qed.

Lemma extract_tweet_ids_fromkeys_witness :
  extract_tweet_ids Sample.W "x.com/a/status/7 and twitter.com/a/statuses/7" = Some ["7"]
  ∧ ∃ ids,
      extract_tweet_ids Sample.W
        "see t.co/abc x.com/b/status/22 and also this x.com/a/web/1 and once more x.com/b/status/22 and x.com/c/status/3"
      = Some ids ∧ ids ≡ₚ ["3"; "1"; "22"] ∧ length ids = 3.
Proof.
  split.
  - apply (proj1 (extract_tweet_ids_fromkeys Sample.W _) "7").
    + vm_compute. discriminate.
    + vm_compute. repeat constructor.
  - destruct (proj2 (extract_tweet_ids_fromkeys Sample.W
        "see t.co/abc x.com/b/status/22 and also this x.com/a/web/1 and once more x.com/b/status/22 and x.com/c/status/3"))
      as (ids & Hids & _ & _ & _ & Hk).
    + vm_compute. discriminate.
    + exists ids. split; [exact Hids|].
      apply Hk; [compute_done|].
      intros x.
      replace (matched_ids _ _) with ["22"; "1"; "22"; "3"; "1"]
        by (vm_compute; reflexivity).
      rewrite !elem_of_cons, elem_of_nil. tauto.
Defined.

(** C8: when the pattern matches nowhere in the text (extended with the
    resolved links), the extractor returns [None]; and it never returns an
    empty list. *)
Theorem extract_tweet_ids_none (W : World) (text : string) :
  (matched_ids W text = [] → extract_tweet_ids W text = None)
  ∧ (∀ ids, extract_tweet_ids W text = Some ids → ids ≠ []).
Proof.
  unfold extract_tweet_ids. split.
  - intros ->. reflexivity.
  - intros ids. destruct (fromkeys (matched_ids W text)) eqn:E; [done|].
    intros [= <-]. done.
Qed.

Lemma extract_tweet_ids_none_witness :
  extract_tweet_ids Sample.W "no link here, only x.com/ and t.co/zzz" = None.
Proof.
  apply (proj1 (extract_tweet_ids_none Sample.W _)). vm_compute. reflexivity.
Defined.

(** ** The media classifier *)

Lemma of_type_filter (ty : string) (tweet_media : list descriptor) :
  Forall (λ media, is_Some (media !! "type")) tweet_media →
  of_type ty tweet_media = Ok (filter (has_type ty) tweet_media).
Proof.
  induction 1 as [|media rest [t Ht] _ IH]; [done|].
  simpl. unfold getitem. rewrite Ht, IH. f_equal.
  unfold has_type at 2. rewrite filter_cons.
  repeat case_decide; unfold has_type in *; congruence.
Qed.

Lemma of_type_missing (ty : string) (tweet_media : list descriptor) :
  Exists (λ media, media !! "type" = None) tweet_media →
  of_type ty tweet_media = Raise KeyError.
Proof.
  induction 1 as [media rest Hm|media rest _ IH]; simpl; unfold getitem.
  - by rewrite Hm.
  - destruct (media !! "type"); [by rewrite IH|done].
Qed.

Lemma recognised_lengths (tweet_media : list descriptor) :
  length (filter (has_type "image") tweet_media)
  + length (filter (has_type "gif") tweet_media)
  + length (filter (has_type "video") tweet_media)
  = length (filter recognised tweet_media).
Proof.
  induction tweet_media as [|media rest IH]; [done|].
  rewrite !filter_cons. unfold recognised in *.
  repeat case_decide; unfold has_type in *; simpl; try lia;
    try congruence; tauto.
Qed.

(** C6: the classifier is a pure function that partitions the descriptors
    by their [type].  On descriptors of the data model (each declares
    [image], [gif] or [video]) it returns the three sub-lists of the
    descriptors declaring each type, each in source order; every
    descriptor of the input is in the bucket of its type and in no other;
    no descriptor is in two buckets; and the bucket sizes sum to the input
    length. *)
Theorem get_media_partition (tweet_media : list descriptor) :
  Forall recognised tweet_media →
  let photos := filter (has_type "image") tweet_media in
  let gifs := filter (has_type "gif") tweet_media in
  let videos := filter (has_type "video") tweet_media in
  get_media tweet_media = Ok (photos, gifs, videos)
  ∧ (photos `sublist_of` tweet_media ∧ gifs `sublist_of` tweet_media
     ∧ videos `sublist_of` tweet_media)
  ∧ (∀ media, media ∈ tweet_media →
       (media ∈ photos ↔ has_type "image" media)
       ∧ (media ∈ gifs ↔ has_type "gif" media)
       ∧ (media ∈ videos ↔ has_type "video" media)
       ∧ (media ∈ photos ∨ media ∈ gifs ∨ media ∈ videos))
  ∧ (∀ media, ¬ (media ∈ photos ∧ media ∈ gifs)
              ∧ ¬ (media ∈ photos ∧ media ∈ videos)
              ∧ ¬ (media ∈ gifs ∧ media ∈ videos))
  ∧ length photos + length gifs + length videos = length tweet_media.
Proof.
  intros Hall photos gifs videos.
  assert (Hty : Forall (λ media, is_Some (media !! "type")) tweet_media).
  { eapply Forall_impl; [exact Hall|]. unfold recognised, has_type.
    intros media [H|[H|H]]; rewrite H; eauto. }
  split_and!.
  - unfold get_media. by rewrite !of_type_filter.
  - apply sublist_filter.
  - apply sublist_filter.
  - apply sublist_filter.
  - intros media Hin. unfold photos, gifs, videos.
    rewrite !list_elem_of_filter.
    rewrite list.Forall_forall in Hall. specialize (Hall media Hin).
    unfold recognised in Hall. tauto.
  - intros media. unfold photos, gifs, videos.
    rewrite !list_elem_of_filter. unfold has_type.
    split_and!; intros [[? _] [? _]]; congruence.
  - unfold photos, gifs, videos. rewrite recognised_lengths.
    f_equal. clear -Hall. induction Hall as [|m l Hm _ IH]; [done|].
    by rewrite filter_cons_True, IH.
Qed.

Lemma get_media_partition_witness :
  get_media [Sample.video "v1"; Sample.photo "p1"; Sample.photo "p2"; Sample.video "v2"]
  = Ok ([Sample.photo "p1"; Sample.photo "p2"], [],
        [Sample.video "v1"; Sample.video "v2"]).
Proof.
  refine (eq_trans (proj1 (get_media_partition
    [Sample.video "v1"; Sample.photo "p1"; Sample.photo "p2"; Sample.video "v2"] _)) _).
  - apply (bool_decide_unpack _). vm_compute. exact I.
  - vm_compute. reflexivity.
Defined.

(** Outside the data model, a descriptor whose type is none of [image],
    [gif], [video] is placed in no bucket. *)
Example get_media_drops_unknown_type :
  let media : descriptor := <["type" := "animated_gif"]> (<["url" := "u"]> ∅) in
  get_media [media] = Ok ([], [], []).
Proof. vm_compute. auto. Qed.

(** ** Counters *)

(** C10: an increment always succeeds, adds exactly 1 to the named counter
    and leaves the other two (and the transport trace) as they were; a
    ['stats'] dictionary that does not exist yet is first created with all
    three counters at zero. *)
Theorem increase_context_counter_frame (counter_name : ContextCounters) (s : state) :
  ∃ s', increase_context_counter counter_name s = (Ok tt, s')
    ∧ calls s' = calls s
    ∧ is_Some (stats s')
    ∧ counter s' counter_name = (counter s counter_name + 1)%Z
    ∧ (∀ k, k ≠ counter_name → counter s' k = counter s k)
    ∧ (stats s = None →
       counter s' counter_name = 1%Z ∧ ∀ k, k ≠ counter_name → counter s' k = 0%Z).
Proof.
  destruct s as [[d|] cs]; unfold increase_context_counter, bind, counter; simpl;
    eexists; (split; [reflexivity|]); simpl; split_and!; try done;
    try (intros _; split); try (intros k Hk);
    case_decide; try done;
    match goal with |- context [match ?c with commands_handled => _ | _ => _ end] =>
      by destruct c end.
Qed.

(** ** Running the monad *)

Lemma increase_context_counter_ok (counter_name : ContextCounters) (s : state) :
  ∃ s', increase_context_counter counter_name s = (Ok tt, s')
        ∧ calls s' = calls s.
Proof.
  destruct s as [[d|] cs]; unfold increase_context_counter, bind; simpl; eauto.
Qed.

Lemma for_acc_app {A B} (l1 l2 : list A) (acc : B) (body : A → B → M B) (s : state) :
  for_acc (l1 ++ l2) acc body s =
  bind (for_acc l1 acc body) (λ acc', for_acc l2 acc' body) s.
Proof.
  revert acc s. induction l1 as [|x l1 IH]; intros acc s; simpl.
  - reflexivity.
  - unfold bind in *. destruct (body x acc s) as [[acc'|e] s1]; [|done].
    by rewrite IH.
Qed.

Lemma silent_ret {A} (a : A) : silent (ret a).
Proof. done. Qed.

Lemma silent_raise {A} (e : exn) : silent (raise (A:=A) e).
Proof. done. Qed.

Lemma silent_lift {A} (r : result A) : silent (lift r).
Proof. done. Qed.

Lemma silent_bind {A B} (m : M A) (k : A → M B) :
  silent m → (∀ a, silent (k a)) → silent (bind m k).
Proof.
  intros Hm Hk s. unfold bind. specialize (Hm s).
  destruct (m s) as [[a|e] s1]; simpl in *; [|done].
  by rewrite Hk.
Qed.

Lemma silent_try_except {A} (m h : M A) (classes : exn → bool) :
  silent m → silent h → silent (try_except m classes h).
Proof.
  intros Hm Hh s. unfold try_except. specialize (Hm s).
  destruct (m s) as [[a|e] s1]; simpl in *; [done|].
  destruct (classes e); simpl; [|done]. by rewrite Hh.
Qed.

Lemma silent_for_acc {A B} (xs : list A) (acc : B) (body : A → B → M B) :
  (∀ x acc', silent (body x acc')) → silent (for_acc xs acc body).
Proof.
  intros Hbody. revert acc. induction xs as [|x xs IH]; intros acc; simpl.
  - apply silent_ret.
  - apply silent_bind; auto.
Qed.

Lemma silent_increase_context_counter (counter_name : ContextCounters) :
  silent (increase_context_counter counter_name).
Proof.
  intros s. destruct (increase_context_counter_ok counter_name s) as (s' & -> & H).
  exact H.
Qed.

Lemma silent_tg_not_awaited (u : Update) : silent (tg_not_awaited u).
Proof. unfold tg_not_awaited. destruct (effective_message u); done. Qed.

Create HintDb silent.
#[global] Hint Resolve silent_ret silent_raise silent_lift silent_try_except
  silent_for_acc silent_increase_context_counter silent_tg_not_awaited : silent.
#[global] Hint Extern 2 (silent (bind _ _)) => apply silent_bind; [|intros] : silent.
#[global] Hint Extern 3 (silent (if ?b then _ else _)) => destruct b : silent.

Lemma silent_get_photos (W : World) (photos : list descriptor) :
  silent (get_photos W photos).
Proof. unfold get_photos, get_photos_body. auto 10 with silent. Qed.

Lemma silent_get_gifs (gifs : list descriptor) : silent (get_gifs gifs).
Proof. unfold get_gifs, get_gifs_body. auto 10 with silent. Qed.

Lemma silent_get_videos (W : World) (u : Update) (videos : list descriptor) :
  silent (get_videos W u videos).
Proof. unfold get_videos, get_videos_body. auto 12 with silent. Qed.

Lemma silent_get_media_for_inline (W : World) (u : Update) (media : list descriptor) :
  silent (get_media_for_inline W u media).
Proof.
  unfold get_media_for_inline. apply silent_bind; [apply silent_lift|].
  intros [[photos gifs] videos].
  destruct photos, gifs, videos;
    auto using silent_ret, silent_get_photos, silent_get_gifs, silent_get_videos.
Qed.

Lemma silent_inline_query_body (W : World) (u : Update) (tweet_id : string)
    (results : list InlineQueryResult) :
  silent (inline_query_body W u tweet_id results).
Proof.
  unfold inline_query_body. apply silent_try_except; [|apply silent_ret].
  apply silent_bind; [apply silent_lift|].
  intros [|m media]; [apply silent_ret|apply silent_get_media_for_inline].
Qed.

(** ** The size gate *)

(** The inline resolver on a video whose probe reports [n] bytes. *)
Lemma get_videos_body_sized (W : World) (u : Update) (video : descriptor)
    (video_url : string) (n : Z) (group : list InlineQueryResult) (s : state) :
  video !! "url" = Some video_url →
  video_probe W video_url = Response true (Length n) →
  fst (get_videos_body W u video group s) =
    if (n <=? size_limit)%Z then
      match video !! "thumbnail_url" with
      | Some thumbnail_url =>
          Ok (group ++ [InlineQueryResultVideo thumbnail_url video_url "Video" "video/mp4"])
      | None => if effective_message u then Ok group else Raise AttributeError
      end
    else Ok (group ++ [InlineQueryResultArticle "Video too big!" "Video too big"]).
Proof.
  intros Hurl Hprobe.
  unfold get_videos_body, bind, lift, try_except, video_size, getitem, ret,
    tg_not_awaited, raise.
  rewrite Hurl, Hprobe. simpl.
  destruct (n <=? size_limit)%Z; simpl.
  - destruct (video !! "thumbnail_url"); simpl.
    + by destruct (increase_context_counter_ok media_downloaded s) as (s' & -> & _).
    + destruct (effective_message u); simpl; [|done].
      by destruct (increase_context_counter_ok media_downloaded s) as (s' & -> & _).
  - by destruct (increase_context_counter_ok media_downloaded s) as (s' & -> & _).
Qed.

(** A request with a fallback request for the caught exceptions, then the
    counter: the first request issued, and nothing after it when the
    transport accepts. *)
Lemma send_or_fallback (W : World) (u : Update) (a b : action) (s : state) :
  effective_message u = true →
  let m := bind (try_except (tg W u a) video_errors (tg W u b))
                (λ _, increase_context_counter media_downloaded) in
  ∃ tail,
    calls (snd (m s)) = calls s ++ (a, accepts W a) :: tail
    ∧ (accepts W a = true → tail = [] ∧ fst (m s) = Ok tt).
Proof.
  intros Hmsg m. unfold m, bind, try_except, tg. rewrite Hmsg.
  destruct (accepts W a) eqn:Ha; simpl.
  - exists [].
    destruct (increase_context_counter_ok media_downloaded
                (mkState (stats s) (calls s ++ [(a, true)]))) as (s' & -> & Hc).
    simpl in *. split; [done|]. by intros _.
  - destruct (accepts W b) eqn:Hb; simpl.
    + destruct (increase_context_counter_ok media_downloaded
        (mkState (stats s) ((calls s ++ [(a, false)]) ++ [(b, true)])))
        as (s' & -> & Hc).
      simpl in *. exists [(b, true)].
      split; [|done]. by rewrite Hc, <- app_assoc.
    + exists [(b, false)]. split; [|done]. by rewrite <- app_assoc.
Qed.

(** The command path on a video whose probe reports [n] bytes. *)
Lemma command_send_videos_body_sized (W : World) (u : Update) (video : descriptor)
    (video_url : string) (n : Z) (s : state) :
  video !! "url" = Some video_url →
  effective_message u = true →
  video_probe W video_url = Response true (Length n) →
  let a := if (n <=? size_limit)%Z then reply_video video_url
           else reply_text (too_large_text video_url) in
  ∃ tail,
    calls (snd (command_send_videos_body W u video s))
      = calls s ++ (a, accepts W a) :: tail
    ∧ (accepts W a = true →
       tail = [] ∧ fst (command_send_videos_body W u video s) = Ok tt).
Proof.
  intros Hurl Hmsg Hprobe a.
  assert (command_send_videos_body W u video s =
          bind (try_except (tg W u a) video_errors
                           (tg W u (reply_text (error_text video_url))))
               (λ _, increase_context_counter media_downloaded) s) as ->.
  { unfold command_send_videos_body, getitem, a. rewrite Hurl.
    unfold bind, lift, try_except, video_size. rewrite Hprobe.
    by destruct (n <=? size_limit)%Z. }
  by apply send_or_fallback.
Qed.

(** C3, as the code has it: the size gate is inclusive at 20 MiB.  A
    video whose probe reports exactly 20 * 1024 * 1024 bytes is delivered
    in line in both modes (an [InlineQueryResultVideo] with the URL in an
    inline answer, a [reply_video] request with the URL in a command
    reply).  One byte more takes the too-large path: the command reply is
    the text "Video is too large for Telegram upload. Link:", a line break
    and the direct URL; the inline answer is the fixed "Video too big!"
    article, which carries no link. *)
Theorem video_size_gate_inclusive (W : World) (u uc : Update) (video : descriptor)
    (video_url thumbnail_url : string) (n : Z)
    (group : list InlineQueryResult) (s : state) :
  video !! "url" = Some video_url →
  video !! "thumbnail_url" = Some thumbnail_url →
  effective_message uc = true →
  video_probe W video_url = Response true (Length n) →
  (n = (20 * 1024 * 1024)%Z →
     fst (get_videos_body W u video group s)
       = Ok (group ++ [InlineQueryResultVideo thumbnail_url video_url "Video" "video/mp4"])
     ∧ ∃ tail,
         calls (snd (command_send_videos_body W uc video s))
           = calls s ++ (reply_video video_url, accepts W (reply_video video_url)) :: tail
         ∧ (accepts W (reply_video video_url) = true →
            tail = [] ∧ fst (command_send_videos_body W uc video s) = Ok tt))
  ∧ (n = (20 * 1024 * 1024 + 1)%Z →
     let text := "Video is too large for Telegram upload. Link:"
                 +:+ String "010" video_url in
     fst (get_videos_body W u video group s)
       = Ok (group ++ [InlineQueryResultArticle "Video too big!" "Video too big"])
     ∧ ∃ tail,
         calls (snd (command_send_videos_body W uc video s))
           = calls s ++ (reply_text text, accepts W (reply_text text)) :: tail
         ∧ (accepts W (reply_text text) = true →
            tail = [] ∧ fst (command_send_videos_body W uc video s) = Ok tt)).
Proof.
  intros Hurl Hthumb Hmsg Hprobe.
  pose proof (get_videos_body_sized W u video video_url n group s Hurl Hprobe) as Hin.
  pose proof (command_send_videos_body_sized W uc video video_url n s Hurl Hmsg Hprobe)
    as Hcmd.
  rewrite Hthumb in Hin.
  split; intros ->; (split; [exact Hin|exact Hcmd]).
Qed.

Lemma video_size_gate_inclusive_witness :
  (fst (get_videos_body Sample.W (Sample.inline_update "q")
          (Sample.video "https://video.twimg.com/fits.mp4") [] Sample.s0)
   = Ok [InlineQueryResultVideo "https://video.twimg.com/fits.mp4.jpg"
           "https://video.twimg.com/fits.mp4" "Video" "video/mp4"]
   ∧ calls (snd (command_send_videos_body Sample.W Sample.command_update
                   (Sample.video "https://video.twimg.com/fits.mp4") Sample.s0))
     = [(reply_video "https://video.twimg.com/fits.mp4", true)])
  ∧ (fst (get_videos_body Sample.W (Sample.inline_update "q")
          (Sample.video "https://video.twimg.com/big.mp4") [] Sample.s0)
     = Ok [InlineQueryResultArticle "Video too big!" "Video too big"]
     ∧ calls (snd (command_send_videos_body Sample.W Sample.command_update
                     (Sample.video "https://video.twimg.com/big.mp4") Sample.s0))
       = [(reply_text ("Video is too large for Telegram upload. Link:"
                       +:+ String "010" "https://video.twimg.com/big.mp4"), true)]).
Proof.
  split.
  - destruct (proj1 (video_size_gate_inclusive Sample.W (Sample.inline_update "q")
      Sample.command_update (Sample.video "https://video.twimg.com/fits.mp4")
      "https://video.twimg.com/fits.mp4" "https://video.twimg.com/fits.mp4.jpg"
      (20 * 1024 * 1024) [] Sample.s0 eq_refl eq_refl eq_refl eq_refl) eq_refl)
      as (Hin & tail & Hcalls & Hok).
    split; [exact Hin|].
    destruct (Hok eq_refl) as [-> _]. exact Hcalls.
  - destruct (proj2 (video_size_gate_inclusive Sample.W (Sample.inline_update "q")
      Sample.command_update (Sample.video "https://video.twimg.com/big.mp4")
      "https://video.twimg.com/big.mp4" "https://video.twimg.com/big.mp4.jpg"
      (20 * 1024 * 1024 + 1) [] Sample.s0 eq_refl eq_refl eq_refl eq_refl) eq_refl)
      as (Hin & tail & Hcalls & Hok).
    split; [exact Hin|].
    destruct (Hok eq_refl) as [-> _]. exact Hcalls.
Defined.

(** C3 as stated fails in inline mode: at 20 MiB plus one byte the inline
    resolver returns, for a list of one video, the one "Video too big!"
    article; neither of its texts holds the URL, so no direct link is
    delivered, while the command reply for the same video is the text that
    ends with the link. *)
Lemma inline_gate_fallback_has_no_link :
  let video_url := "https://video.twimg.com/big.mp4" in
  video_probe Sample.W video_url = Response true (Length (20 * 1024 * 1024 + 1))
  ∧ fst (get_videos Sample.W (Sample.inline_update "q") [Sample.video video_url] Sample.s0)
    = Ok [InlineQueryResultArticle "Video too big!" "Video too big"]
  ∧ String.index 0 video_url "Video too big!" = None
  ∧ String.index 0 video_url "Video too big" = None
  ∧ calls (snd (command_send_videos Sample.W Sample.command_update
                  [Sample.video video_url] Sample.s0))
    = [(reply_text ("Video is too large for Telegram upload. Link:"
                    +:+ String "010" video_url), true)].
Proof. vm_compute. auto 10. Qed.

(** C5, as the code has it: for a video whose probed size exceeds 20 MiB,
    the command reply is the text "Video is too large for Telegram upload.
    Link:", a line break and the raw video URL, which ends the text; the
    inline result is the fixed "Video too big!" article, the same whatever
    the URL. *)
Theorem too_large_delivery (W : World) (u uc : Update) (video : descriptor)
    (video_url : string) (n : Z) (group : list InlineQueryResult) (s : state) :
  video !! "url" = Some video_url →
  effective_message uc = true →
  video_probe W video_url = Response true (Length n) →
  (20 * 1024 * 1024 < n)%Z →
  let text := "Video is too large for Telegram upload. Link:"
              +:+ String "010" video_url in
  (∃ tail,
     calls (snd (command_send_videos_body W uc video s))
       = calls s ++ (reply_text text, accepts W (reply_text text)) :: tail
     ∧ (accepts W (reply_text text) = true →
        tail = [] ∧ fst (command_send_videos_body W uc video s) = Ok tt))
  ∧ fst (get_videos_body W u video group s)
    = Ok (group ++ [InlineQueryResultArticle "Video too big!" "Video too big"]).
Proof.
  intros Hurl Hmsg Hprobe Hn.
  assert ((n <=? size_limit)%Z = false) as Hgate.
  { apply Z.leb_gt. unfold size_limit. lia. }
  split.
  - destruct (command_send_videos_body_sized W uc video video_url n s Hurl Hmsg Hprobe)
      as (tail & Hcalls & Hok).
    rewrite Hgate in Hcalls, Hok.
    exists tail. split; [exact Hcalls|exact Hok].
  - rewrite (get_videos_body_sized W u video video_url n group s Hurl Hprobe).
    by rewrite Hgate.
Qed.

Lemma too_large_delivery_witness :
  calls (snd (command_send_videos_body Sample.W Sample.command_update
                (Sample.video "https://video.twimg.com/big.mp4") Sample.s0))
  = [(reply_text ("Video is too large for Telegram upload. Link:"
                  +:+ String "010" "https://video.twimg.com/big.mp4"), true)]
  ∧ fst (get_videos_body Sample.W (Sample.inline_update "q")
           (Sample.video "https://video.twimg.com/big.mp4") [] Sample.s0)
    = Ok [InlineQueryResultArticle "Video too big!" "Video too big"].
Proof.
  destruct (too_large_delivery Sample.W (Sample.inline_update "q")
    Sample.command_update (Sample.video "https://video.twimg.com/big.mp4")
    "https://video.twimg.com/big.mp4" (20 * 1024 * 1024 + 1) [] Sample.s0
    eq_refl eq_refl eq_refl eq_refl) as [(tail & Hcalls & Hok) Hin].
  split; [|exact Hin].
  destruct (Hok eq_refl) as [-> _]. exact Hcalls.
Defined.

(** C5 as stated fails in inline mode: the answer for a video of 20 MiB
    plus one byte is one article whose two texts do not contain the URL. *)
Lemma inline_too_large_has_no_link :
  calls (snd (inline_query Sample.W
                (Sample.inline_update "https://x.com/alice/status/4") Sample.s0))
  = [(answer [InlineQueryResultArticle "Video too big!" "Video too big"], true)]
  ∧ api Sample.W "4" = Response true (Some [Sample.video "https://video.twimg.com/big.mp4"])
  ∧ video_probe Sample.W "https://video.twimg.com/big.mp4"
    = Response true (Length (20 * 1024 * 1024 + 1))
  ∧ String.index 0 "https://video.twimg.com/big.mp4" "Video too big!" = None
  ∧ String.index 0 "https://video.twimg.com/big.mp4" "Video too big" = None.
Proof. vm_compute. auto. Qed.

(** ** The quality upgrader *)

(** What the upgrader does with a probe that was answered. *)
Lemma get_photo_url_answered (W : World) (url new_url : string) (ok : bool) :
  replace_query W url "format=jpg&name=orig" = Some new_url →
  head_probe W new_url = Response ok tt →
  get_photo_url W url = Ok (if ok then new_url else url).
Proof. unfold get_photo_url. intros -> ->. by destruct ok. Qed.

(** C4 fails on the code: a probe that gets no response (a connection
    error, which the video resolvers catch) is raised to the caller
    instead of falling back to the original URL. *)
Theorem get_photo_url_connection_error (W : World) (url new_url : string) :
  replace_query W url "format=jpg&name=orig" = Some new_url →
  head_probe W new_url = NoResponse →
  get_photo_url W url = Raise ConnectionError.
Proof. unfold get_photo_url. by intros -> ->. Qed.

Lemma get_photo_url_connection_error_witness :
  get_photo_url Sample.W "https://pbs.twimg.com/media/down.jpg" = Raise ConnectionError.
Proof.
  apply (get_photo_url_connection_error Sample.W _
           "https://pbs.twimg.com/media/down.jpg?format=jpg&name=orig");
    reflexivity.
Defined.

(** The error reaches the user of a command reply: the handler stops before
    sending the photo and before counting the command. *)
Example grab_command_photo_host_down :
  let r := grab_command Sample.W Sample.command_update
             ["https://x.com/alice/status/6"] Sample.s0 in
  fst r = Raise ConnectionError
  ∧ calls (snd r) = [(reply_text "tweet: https://x.com/alice/status/6", true)]
  ∧ stats (snd r) = None.
Proof. vm_compute. auto. Qed.

(** ** Command replies *)

(** C2 fails on the code: when the metadata fetch of the only identifier
    fails (unsuccessful status, or a body without [media_extended]), the
    command handler raises; the only request issued is the "tweet:" echo,
    no failure text follows it, and the counters are left as they were. *)
Theorem grab_command_fetch_failure (W : World) (u : Update) (url tweet_id : string)
    (rest : list string) (s : state) :
  effective_message u = true →
  Re.correct_twitter_pattern url = true →
  extract_tweet_ids W url = Some [tweet_id] →
  (∃ payload, api W tweet_id = Response false payload)
    ∨ api W tweet_id = Response true None →
  ∃ e s',
    grab_command W u (url :: rest) s = (Raise e, s')
    ∧ stats s' = stats s
    ∧ calls s' = calls s ++ [(reply_text ("tweet: " +:+ url),
                              accepts W (reply_text ("tweet: " +:+ url)))].
Proof.
  intros Hmsg Hpat Hids Hapi.
  assert (∃ e, scrape_media W tweet_id = Raise e) as [e He].
  { unfold scrape_media. destruct Hapi as [[payload ->]| ->]; eauto. }
  unfold grab_command, bind, ret, tg. rewrite Hpat, Hids, Hmsg. simpl.
  destruct (accepts W (reply_text ("tweet: " +:+ url))); simpl.
  - unfold grab_command_body, bind, lift. rewrite He. simpl. eauto.
  - eauto.
Qed.

Lemma grab_command_fetch_failure_witness :
  ∃ e s',
    grab_command Sample.W Sample.command_update
      ["https://x.com/alice/status/123456"] Sample.s0 = (Raise e, s')
    ∧ stats s' = None
    ∧ calls s' = [(reply_text "tweet: https://x.com/alice/status/123456", true)].
Proof.
  apply (grab_command_fetch_failure Sample.W Sample.command_update
           "https://x.com/alice/status/123456" "123456" [] Sample.s0);
    [reflexivity | reflexivity | reflexivity | left; by eexists].
Defined.

(** ** Inline queries *)

(** The empty text holds no identifier. *)
Lemma extract_tweet_ids_empty (W : World) : extract_tweet_ids W "" = None.
Proof. reflexivity. Qed.

Section Inline.

Context (W : World) (u : Update).

Lemma inline_query_body_yields tweet_id r results s :
  yields W u tweet_id r →
  fst (inline_query_body W u tweet_id results s) = Ok r.
Proof.
  intros (media & Hfetch & Hne & Hres).
  unfold inline_query_body, try_except, bind, lift. rewrite Hfetch.
  destruct media as [|m media]; [done|].
  specialize (Hres s).
  by destruct (get_media_for_inline W u (m :: media) s) as [[r'|e] s']; simpl in *;
    simplify_eq.
Qed.

Lemma inline_query_body_skipped tweet_id results s :
  skipped W u tweet_id →
  fst (inline_query_body W u tweet_id results s) = Ok results.
Proof.
  unfold inline_query_body, try_except, bind, lift.
  intros [[e ->]|[->|(media & -> & Hres)]]; [done..|].
  destruct media as [|m media]; [done|].
  destruct (Hres s) as [e He].
  by destruct (get_media_for_inline W u (m :: media) s) as [[r'|e'] s']; simpl in *;
    simplify_eq.
Qed.

(** The loop over identifiers that are all skipped returns the results it
    started with. *)
Lemma inline_loop_skipped tweet_ids results s :
  (∀ id, id ∈ tweet_ids → skipped W u id) →
  fst (for_acc tweet_ids results (inline_query_body W u) s) = Ok results.
Proof.
  revert s. induction tweet_ids as [|id ids IH]; intros s Hall; [done|].
  simpl. unfold bind.
  pose proof (inline_query_body_skipped id results s (Hall id ltac:(left))) as Hid.
  destruct (inline_query_body W u id results s) as [[r|e] s1]; simpl in *;
    simplify_eq.
  apply IH. intros id' Hin. apply Hall. by right.
Qed.

(** The loop returns what its last identifier that is not skipped yields. *)
Lemma inline_loop_last before tweet_id after r results s :
  yields W u tweet_id r →
  (∀ id, id ∈ after → skipped W u id) →
  fst (for_acc (before ++ tweet_id :: after) results (inline_query_body W u) s) = Ok r.
Proof.
  intros Hy Hafter. rewrite for_acc_app. unfold bind.
  destruct (for_acc before results (inline_query_body W u) s) as [[r0|e] s0] eqn:E.
  - simpl. unfold bind.
    pose proof (inline_query_body_yields tweet_id r r0 s0 Hy) as Hid.
    destruct (inline_query_body W u tweet_id r0 s0) as [[r1|e] s1]; simpl in *;
      simplify_eq.
    by apply inline_loop_skipped.
  - exfalso. clear -E. revert results s E.
    induction before as [|id ids IH]; intros results s; simpl; [done|].
    unfold bind.
    destruct (inline_query_body W u id results s) as [[r1|e1] s1] eqn:E1.
    + apply IH.
    + unfold inline_query_body, try_except in E1.
      destruct (bind _ _ s) as [[?|?] ?]; simplify_eq.
Qed.

(** When the query has identifiers (so it is not empty) and the loop ends
    with [results], the handler issues one request: the answer carrying
    [results], or the placeholder when they are empty. *)
Lemma inline_query_answer query tweet_ids results s :
  inline_query_text u = Some query →
  extract_tweet_ids W query = Some tweet_ids →
  fst (for_acc tweet_ids [] (inline_query_body W u) s) = Ok results →
  let final := match results with [] => [nothing_found] | _ => results end in
  calls (snd (inline_query W u s)) = calls s ++ [(answer final, accepts W (answer final))]
  ∧ fst (inline_query W u s)
    = if accepts W (answer final) then Ok tt else Raise BadRequest.
Proof.
  intros Hq Hids Hloop final.
  assert (query ≠ "") as Hne.
  { intros ->. by rewrite extract_tweet_ids_empty in Hids. }
  unfold inline_query. rewrite Hq, Hids. rewrite decide_False by done.
  unfold bind.
  pose proof (silent_for_acc tweet_ids [] (inline_query_body W u)
                (silent_inline_query_body W u) s) as Hsilent.
  destruct (for_acc tweet_ids [] (inline_query_body W u) s) as [[r|e] s1];
    simpl in *; simplify_eq.
  fold final.
  destruct (increase_context_counter_ok messages_handled s1) as (s2 & -> & Hc).
  unfold tg_answer. simpl. by rewrite Hc, Hsilent.
Qed.

(** The loop over identifiers that are skipped or yield an empty list
    ends with no result. *)
Lemma inline_loop_empty tweet_ids s :
  (∀ id, id ∈ tweet_ids → skipped W u id ∨ yields W u id []) →
  fst (for_acc tweet_ids [] (inline_query_body W u) s) = Ok [].
Proof.
  revert s. induction tweet_ids as [|id ids IH]; intros s Hall; [done|].
  simpl. unfold bind.
  assert (fst (inline_query_body W u id [] s) = Ok []) as Hid.
  { destruct (Hall id ltac:(left)) as [Hs|Hy].
    - by apply inline_query_body_skipped.
    - by apply inline_query_body_yields. }
  destruct (inline_query_body W u id [] s) as [[r|e] s1]; simpl in *; simplify_eq.
  apply IH. intros id' Hin. apply Hall. by right.
Qed.

End Inline.

(** C1, as the code has it: the loop does not stop at an identifier that
    yields results; every identifier is processed and each one whose
    metadata is fetched, not empty and resolved overwrites the results.
    The one request issued is the answer, and it carries the decisions of
    the last such identifier (every identifier after it being skipped), or
    the single "nothing found" placeholder when these decisions are empty;
    the identifiers before it contribute nothing to the answer. *)
Theorem inline_query_last_wins (W : World) (u : Update) (query tweet_id : string)
    (before after : list string) (r : list InlineQueryResult) (s : state) :
  inline_query_text u = Some query →
  extract_tweet_ids W query = Some (before ++ tweet_id :: after) →
  yields W u tweet_id r →
  (∀ id, id ∈ after → skipped W u id) →
  let final := match r with [] => [nothing_found] | _ => r end in
  calls (snd (inline_query W u s)) = calls s ++ [(answer final, accepts W (answer final))]
  ∧ fst (inline_query W u s) = if accepts W (answer final) then Ok tt else Raise BadRequest.
Proof.
  intros Hq Hids Hy Hafter.
  pose proof (inline_loop_last W u before tweet_id after r [] s Hy Hafter) as Hloop.
  exact (inline_query_answer W u query _ r s Hq Hids Hloop).
Qed.

Lemma inline_query_last_wins_witness :
  calls (snd (inline_query Sample.W
    (Sample.inline_update
       "https://x.com/alice/status/1 and https://x.com/bob/status/2 or https://x.com/carol/status/5")
    Sample.s0))
  = [(answer [InlineQueryResultPhoto "https://pbs.twimg.com/media/two.jpg"
                                     "https://pbs.twimg.com/media/two.jpg"], true)].
Proof.
  apply (inline_query_last_wins Sample.W
    (Sample.inline_update
       "https://x.com/alice/status/1 and https://x.com/bob/status/2 or https://x.com/carol/status/5")
    "https://x.com/alice/status/1 and https://x.com/bob/status/2 or https://x.com/carol/status/5"
    "2" ["1"] ["5"]
    [InlineQueryResultPhoto "https://pbs.twimg.com/media/two.jpg"
                            "https://pbs.twimg.com/media/two.jpg"]
    Sample.s0).
  - reflexivity.
  - vm_compute. reflexivity.
  - exists [Sample.photo "https://pbs.twimg.com/media/two.jpg"].
    split; [reflexivity|]. split; [discriminate|].
    intros [[d|] cs]; vm_compute; reflexivity.
  - intros id Hid. apply list_elem_of_singleton in Hid. subst id.
    right. left. reflexivity.
Defined.

(** C1 as stated fails: the first identifier of the query yields one
    resolved photo, yet the answer carries the photo of the second, and
    the media of both were resolved and counted. *)
Lemma inline_query_does_not_stop_at_first :
  let u := Sample.inline_update
             "https://x.com/alice/status/1 and https://x.com/bob/status/2" in
  extract_tweet_ids Sample.W "https://x.com/alice/status/1 and https://x.com/bob/status/2"
    = Some ["1"; "2"]
  ∧ fst (inline_query_body Sample.W u "1" [] Sample.s0)
    = Ok [InlineQueryResultPhoto "https://pbs.twimg.com/media/one.jpg?format=jpg&name=orig"
                                 "https://pbs.twimg.com/media/one.jpg?format=jpg&name=orig"]
  ∧ calls (snd (inline_query Sample.W u Sample.s0))
    = [(answer [InlineQueryResultPhoto "https://pbs.twimg.com/media/two.jpg"
                                       "https://pbs.twimg.com/media/two.jpg"], true)]
  ∧ counter (snd (inline_query Sample.W u Sample.s0)) media_downloaded = 2%Z.
Proof. vm_compute. auto. Qed.

(** The placeholder branch: for a query from which at least one identifier
    is extracted, when every identifier is skipped (its fetch fails, it has
    no descriptor, or resolving it raises) or yields an empty list, the
    handler answers with exactly the one "nothing found" placeholder. *)
Lemma inline_query_nothing_found (W : World) (u : Update) (query : string)
    (tweet_ids : list string) (s : state) :
  inline_query_text u = Some query →
  extract_tweet_ids W query = Some tweet_ids →
  (∀ id, id ∈ tweet_ids → skipped W u id ∨ yields W u id []) →
  calls (snd (inline_query W u s))
    = calls s ++ [(answer [nothing_found], accepts W (answer [nothing_found]))]
  ∧ fst (inline_query W u s)
    = if accepts W (answer [nothing_found]) then Ok tt else Raise BadRequest.
Proof.
  intros Hq Hids Hall.
  pose proof (inline_loop_empty W u tweet_ids s Hall) as Hloop.
  exact (inline_query_answer W u query tweet_ids [] s Hq Hids Hloop).
Qed.

Lemma inline_query_nothing_found_witness :
  calls (snd (inline_query Sample.W
    (Sample.inline_update "https://x.com/alice/status/5 and https://x.com/bob/status/999")
    Sample.s0))
  = [(answer [nothing_found], true)].
Proof.
  apply (inline_query_nothing_found Sample.W
    (Sample.inline_update "https://x.com/alice/status/5 and https://x.com/bob/status/999")
    "https://x.com/alice/status/5 and https://x.com/bob/status/999"
    ["5"; "999"] Sample.s0).
  - reflexivity.
  - vm_compute. reflexivity.
  - intros id Hid. left.
    apply elem_of_cons in Hid as [->|Hid].
    + right. left. reflexivity.
    + apply list_elem_of_singleton in Hid. subst id. left. by eexists.
Defined.

(** The empty query, should the handler be called with it, is returned
    from at once and is not answered. *)
Example inline_query_empty_not_answered :
  inline_query Sample.W (Sample.inline_update "") Sample.s0 = (Ok tt, Sample.s0)
  ∧ calls Sample.s0 = [].
Proof. vm_compute. auto. Qed.

(** A query that passes the handler's filter and holds no identifier for
    the extractor (the user part is longer than 15 characters) makes the
    loop iterate over [None]: the handler raises and answers nothing. *)
Example inline_query_without_identifier :
  let query := "https://x.com/abcdefghijklmnop/status/1" in
  Re.correct_twitter_pattern query = true
  ∧ extract_tweet_ids Sample.W query = None
  ∧ inline_query Sample.W (Sample.inline_update query) Sample.s0
    = (Raise TypeError, Sample.s0).
Proof. vm_compute. auto. Qed.

(** ** The patterns on concrete texts *)

Example findall_ids_scenario :
  Re.findall_ids "check https://x.com/alice/status/123456" = ["123456"].
Proof. reflexivity. Qed.

Example findall_ids_two :
  Re.findall_ids "x.com/a/status/1 and twitter.com/bob/statuses/22 x.com/a/web/1"
  = ["1"; "22"; "1"].
Proof. reflexivity. Qed.

Example findall_ids_long_user :
  Re.findall_ids "https://x.com/abcdefghijklmnop/status/1" = [].
Proof. reflexivity. Qed.

Example findall_tco_ex :
  Re.findall_tco "see t.co/Ab12 and https://t.co/zZ9, t.co/" = ["t.co/Ab12"; "t.co/zZ9"].
Proof. reflexivity. Qed.

Example correct_pattern_ex :
  Re.correct_twitter_pattern "https://x.com/alice/status/123456" = true
  /\ Re.correct_twitter_pattern "https://x.com/abcdefghijklmnop/status/1" = true
  /\ Re.correct_twitter_pattern "https://www.twitter.com/alice/status/1" = false
  /\ Re.correct_twitter_pattern "see https://x.com/alice/status/1" = false.
Proof. repeat split; reflexivity. Qed.

(** * Further properties of the code *)

(** ** What the matchers return *)

Section Matchers.

Implicit Types (s t r g p : string) (cls : ascii → bool).

Lemma append_nil_r s : s +:+ "" = s.
Proof.
  induction s as [|c s IH]; [done|].
  change (String c (s +:+ "") = String c s). by f_equal.
Qed.

Lemma length_append s t : String.length (s +:+ t) = String.length s + String.length t.
Proof.
  induction s as [|c s IH]; [done|].
  change (S (String.length (s +:+ t)) = S (String.length s) + String.length t).
  by rewrite IH.
Qed.

Lemma lit_Some p s r : Re.lit p s = Some r ↔ s = p +:+ r.
Proof.
  revert s. induction p as [|a p IH]; intros s; simpl.
  - split; [by intros [= ->]|by intros ->].
  - destruct s as [|b s]; [by split|].
    destruct (Ascii.eqb_spec a b) as [->|Hne].
    + rewrite IH. split; [by intros ->|by intros [= ->]].
    + split; [done|]. intros [= ? ?]. done.
Qed.

Lemma upto_spec n cls s t r :
  Re.upto n cls s = (t, r) →
  s = t +:+ r ∧ (String.length t ≤ n)%nat ∧ all_chars cls t = true.
Proof.
  revert s t r. induction n as [|n IH]; intros s t r; simpl.
  - destruct s; intros [= <- <-]; simpl; auto with lia.
  - destruct s as [|c s]; [intros [= <- <-]; simpl; auto with lia|].
    destruct (cls c) eqn:Hc; [|intros [= <- <-]; simpl; auto with lia].
    destruct (Re.upto n cls s) as [t' r'] eqn:E. intros [= <- <-].
    destruct (IH _ _ _ E) as (-> & Hlen & Hall). simpl.
    rewrite Hc, Hall. auto with lia.
Qed.

Lemma slash_id_spec s g r :
  Re.slash_id s = Some (g, r) → well_formed_id g.
Proof.
  unfold Re.slash_id. destruct (Re.lit "/" s) as [s1|]; [|done].
  destruct (Re.upto 20 Re.is_digit s1) as [d r'] eqn:E.
  destruct (upto_spec _ _ _ _ _ E) as (_ & Hlen & Hall).
  destruct d as [|c d]; [done|]. intros [= <- <-].
  split; [simpl in *; lia|done].
Qed.

Lemma andthen_Some {A B} (x : option A) (f : A → option B) (b : B) :
  Re.andthen x f = Some b → ∃ a, x = Some a ∧ f a = Some b.
Proof. destruct x as [a|]; [eauto|done]. Qed.

Lemma orelse_Some {A} (x y : option A) (a : A) :
  Re.orelse x y = Some a → x = Some a ∨ (x = None ∧ y = Some a).
Proof. destruct x; simpl; auto. Qed.

Lemma kind_id_spec s g r :
  Re.kind_id s = Some (g, r) → well_formed_id g.
Proof.
  unfold Re.kind_id. destruct (Re.lit "/" s) as [s1|]; [|done].
  intros H.
  repeat (apply orelse_Some in H as [H|[_ H]]);
    apply andthen_Some in H as (s2 & _ & H); by eapply slash_id_spec.
Qed.

Lemma dots_spec n s g r :
  Re.dots n s = Some (g, r) → well_formed_id g.
Proof.
  revert s. induction n as [|n IH]; intros s; simpl.
  - destruct s; apply kind_id_spec.
  - destruct s as [|c s]; [apply kind_id_spec|].
    destruct (Re.is_dot c); [|apply kind_id_spec].
    unfold Re.orelse. destruct (Re.dots n s) as [[g' r']|] eqn:E.
    + intros [= <- <-]. eauto.
    + apply kind_id_spec.
Qed.

Lemma id_at_spec s g r :
  Re.id_at s = Some (g, r) → well_formed_id g.
Proof.
  unfold Re.id_at. cbv zeta. intros H.
  apply orelse_Some in H as [H|[_ H]];
    apply andthen_Some in H as ([|c s2] & _ & H); try done;
    (destruct (Re.is_dot c); [|done]); by eapply dots_spec.
Qed.

(** Every element [re.findall] returns is the group of a match of the
    pattern somewhere in the text. *)
Lemma findall_from_matches (at_ : string → option (string * string)) skip s :
  Forall (λ g, ∃ s' r, at_ s' = Some (g, r)) (Re.findall_from at_ skip s).
Proof.
  revert skip. induction s as [|c s IH]; intros skip; simpl; [constructor|].
  destruct skip as [|k]; [|apply IH].
  destruct (at_ (String c s)) as [[g r]|] eqn:E; [|apply IH].
  constructor; [eauto|apply IH].
Qed.

End Matchers.

(** X1: every identifier the extractor returns is a string of 1 to 20
    decimal digits, whatever the text and the redirects. *)
Theorem extract_tweet_ids_well_formed (W : World) (text : string) (ids : list string) :
  extract_tweet_ids W text = Some ids → Forall well_formed_id ids.
Proof.
  unfold extract_tweet_ids.
  destruct (fromkeys (matched_ids W text)) as [|a l] eqn:E; [done|].
  intros [= <-]. rewrite <- E. apply list.Forall_forall. intros g Hg.
  apply (proj1 (fromkeys_elem_of _ _)) in Hg. unfold matched_ids, Re.findall_ids in Hg.
  pose proof (findall_from_matches Re.id_at 0
                (text +:+ unshortened_links W text)) as Hall.
  rewrite list.Forall_forall in Hall.
  destruct (Hall g Hg) as (s' & r & Hm). by eapply id_at_spec.
Qed.

Lemma extract_tweet_ids_well_formed_witness :
  Forall well_formed_id ["22"; "1"; "3"].
Proof.
  apply (extract_tweet_ids_well_formed Sample.W
    "see t.co/abc x.com/b/status/22 and also this x.com/a/web/1 and once more x.com/b/status/22 and x.com/c/status/3").
  vm_compute. reflexivity.
Defined.

(** X2: a shortened link that cannot be resolved contributes nothing: when
    every [t.co] link of the text fails to resolve (or the text has none),
    the identifiers are those of the text alone. *)
Theorem unresolved_links_contribute_nothing (W : World) (text : string) :
  (∀ link, link ∈ Re.findall_tco text → redirect W ("https://" +:+ link) = None) →
  unshortened_links W text = ""
  ∧ matched_ids W text = Re.findall_ids text.
Proof.
  intros Hfail.
  assert (unshortened_links W text = "") as Hno.
  { unfold unshortened_links. generalize dependent (Re.findall_tco text).
    intros links Hfail. induction links as [|link links IH]; [done|].
    simpl. rewrite (Hfail link) by left. apply IH.
    intros l Hl. apply Hfail. by right. }
  split; [done|]. unfold matched_ids. by rewrite Hno, append_nil_r.
Qed.

Lemma unresolved_links_contribute_nothing_witness :
  matched_ids Sample.W "t.co/gone then https://x.com/alice/status/42"
  = Re.findall_ids "t.co/gone then https://x.com/alice/status/42".
Proof.
  apply (unresolved_links_contribute_nothing Sample.W).
  intros link Hlink. vm_compute in Hlink.
  apply list_elem_of_singleton in Hlink. subst link. reflexivity.
Defined.

(** ** Classification errors *)

(** X3: the classifier raises exactly when some descriptor has no [type]
    field, and the only exception it raises is [KeyError]. *)
Theorem get_media_key_error (tweet_media : list descriptor) :
  (Exists (λ media, media !! "type" = None) tweet_media →
   get_media tweet_media = Raise KeyError)
  ∧ (∀ e, get_media tweet_media = Raise e →
       e = KeyError ∧ Exists (λ media, media !! "type" = None) tweet_media).
Proof.
  split.
  - intros Hex. unfold get_media. by rewrite of_type_missing.
  - intros e He.
    destruct (decide (Forall (λ media, is_Some (media !! "type")) tweet_media))
      as [Hall|Hnot].
    + unfold get_media in He. by rewrite !of_type_filter in He.
    + apply not_Forall_Exists in Hnot; [|apply _].
      assert (Exists (λ media, media !! "type" = None) tweet_media) as Hex.
      { eapply Exists_impl; [exact Hnot|]. intros m Hm. simpl in Hm.
        destruct (m !! "type"); [|done]. exfalso. apply Hm. by eexists. }
      split; [|done]. unfold get_media in He.
      rewrite of_type_missing in He by done. congruence.
Qed.

Lemma get_media_key_error_witness :
  get_media [Sample.photo "p"; <["url" := "u"]> ∅] = Raise KeyError.
Proof.
  apply (proj1 (get_media_key_error _)).
  apply Exists_cons_tl, Exists_cons_hd. reflexivity.
Defined.

(** ** Counters through the handlers *)

Lemma counted_refl (s : state) : counted 0 s s.
Proof. unfold counted. split_and!; [lia|done..]. Qed.

Lemma counted_trans (n m : Z) (s1 s2 s3 : state) :
  counted n s1 s2 → counted m s2 s3 → counted (n + m) s1 s3.
Proof. unfold counted. intros (? & ? & ?) (? & ? & ?). split_and!; [lia|congruence..]. Qed.

Lemma counted_same_stats (s s' : state) : stats s' = stats s → counted 0 s s'.
Proof. unfold counted, counter. intros ->. split_and!; [lia|done..]. Qed.

#[global] Instance media_grows_preorder : PreOrder media_grows.
Proof.
  split.
  - intros s. exists 0%Z. split; [lia|apply counted_refl].
  - intros s1 s2 s3 (n & Hn & H12) (m & Hm & H23).
    exists (n + m)%Z. split; [lia|by eapply counted_trans].
Qed.

Lemma increase_media_counted (s : state) :
  ∃ s', increase_context_counter media_downloaded s = (Ok tt, s')
        ∧ calls s' = calls s ∧ counted 1 s s'.
Proof.
  destruct s as [[d|] cs]; unfold increase_context_counter, bind, counted, counter;
    simpl; eexists; split_and!; reflexivity.
Qed.

Section Keeps.

Context (R : state → state → Prop) `{!PreOrder R}.

Lemma keeps_ret {A} (a : A) : keeps R (ret a).
Proof. intros s. reflexivity. Qed.

Lemma keeps_raise {A} (e : exn) : keeps R (raise (A:=A) e).
Proof. intros s. reflexivity. Qed.

Lemma keeps_lift {A} (r : result A) : keeps R (lift r).
Proof. intros s. reflexivity. Qed.

Lemma keeps_bind {A B} (m : M A) (k : A → M B) :
  keeps R m → (∀ a, keeps R (k a)) → keeps R (bind m k).
Proof.
  intros Hm Hk s. unfold bind. specialize (Hm s).
  destruct (m s) as [[a|e] s1]; simpl in *; [|done].
  etrans; [exact Hm|apply Hk].
Qed.

Lemma keeps_try_except {A} (m h : M A) (classes : exn → bool) :
  keeps R m → keeps R h → keeps R (try_except m classes h).
Proof.
  intros Hm Hh s. unfold try_except. specialize (Hm s).
  destruct (m s) as [[a|e] s1]; simpl in *; [done|].
  destruct (classes e); simpl; [|done]. etrans; [exact Hm|apply Hh].
Qed.

Lemma keeps_for_acc {A B} (xs : list A) (acc : B) (body : A → B → M B) :
  (∀ x acc', keeps R (body x acc')) → keeps R (for_acc xs acc body).
Proof.
  intros Hbody. revert acc. induction xs as [|x xs IH]; intros acc; simpl.
  - apply keeps_ret.
  - apply keeps_bind; auto.
Qed.

Lemma keeps_for_each {A} (xs : list A) (body : A → M unit) :
  (∀ x, keeps R (body x)) → keeps R (for_each xs body).
Proof.
  intros Hbody. induction xs as [|x xs IH]; simpl.
  - apply keeps_ret.
  - apply keeps_bind; auto.
Qed.

End Keeps.

Lemma keeps_increase_media : keeps media_grows (increase_context_counter media_downloaded).
Proof.
  intros s. destruct (increase_media_counted s) as (s' & -> & _ & Hc).
  exists 1%Z. split; [lia|done].
Qed.

Lemma keeps_tg (W : World) (u : Update) (a : action) : keeps media_grows (tg W u a).
Proof.
  intros s. unfold tg. exists 0%Z. split; [lia|].
  destruct (effective_message u); simpl; by apply counted_same_stats.
Qed.

Lemma keeps_tg_not_awaited (u : Update) : keeps media_grows (tg_not_awaited u).
Proof.
  unfold tg_not_awaited. destruct (effective_message u);
    [apply keeps_ret|apply keeps_raise]; apply _.
Qed.

Create HintDb keeps.
#[global] Hint Resolve keeps_ret keeps_raise keeps_lift keeps_try_except
  keeps_for_acc keeps_for_each keeps_increase_media keeps_tg keeps_tg_not_awaited
  media_grows_preorder : keeps.
#[global] Hint Extern 2 (keeps _ (bind _ _)) =>
  apply keeps_bind; [apply media_grows_preorder| |intros] : keeps.
#[global] Hint Extern 3 (keeps _ (if ?b then _ else _)) => destruct b : keeps.
#[global] Hint Extern 3 (keeps _ (match ?l with [] => _ | _ :: _ => _ end)) =>
  destruct l : keeps.

Lemma keeps_get_media_for_inline (W : World) (u : Update) (media : list descriptor) :
  keeps media_grows (get_media_for_inline W u media).
Proof.
  unfold get_media_for_inline. apply keeps_bind; [apply _|apply keeps_lift; apply _|].
  intros [[photos gifs] videos].
  unfold get_photos, get_photos_body, get_gifs, get_gifs_body, get_videos,
    get_videos_body.
  destruct photos, gifs, videos; auto 15 with keeps.
Qed.

Lemma keeps_inline_query_body (W : World) (u : Update) (tweet_id : string)
    (results : list InlineQueryResult) :
  keeps media_grows (inline_query_body W u tweet_id results).
Proof.
  unfold inline_query_body. apply keeps_try_except; [apply _| |apply keeps_ret; apply _].
  apply keeps_bind; [apply _|apply keeps_lift; apply _|].
  intros [|m media]; [apply keeps_ret; apply _|apply keeps_get_media_for_inline].
Qed.

Lemma keeps_grab_command_body (W : World) (u : Update) (tweet_id : string) :
  keeps media_grows (grab_command_body W u tweet_id).
Proof.
  unfold grab_command_body, command_send_photos, command_send_gifs,
    command_send_videos, command_send_videos_body.
  apply keeps_bind; [apply _|apply keeps_lift; apply _|]. intros media.
  apply keeps_bind; [apply _|apply keeps_lift; apply _|].
  intros [[photos gifs] videos].
  auto 20 with keeps.
Qed.

Lemma increase_context_counter_counts (c : ContextCounters) (s : state) :
  ∃ s', increase_context_counter c s = (Ok tt, s')
        ∧ calls s' = calls s
        ∧ ∀ k, counter s' k = (counter s k + if decide (k = c) then 1 else 0)%Z.
Proof.
  destruct s as [[d|] cs]; unfold increase_context_counter, bind, counter; simpl;
    eexists; (split; [reflexivity|]); (split; [reflexivity|]);
    intros k; simpl; repeat case_decide; try done; try lia; destruct k; lia.
Qed.

(** A counter increment after a computation that only lets
    [media_downloaded] grow. *)
Lemma counts_after (inner : M unit) (c : ContextCounters) (s : state) :
  keeps media_grows inner →
  c ≠ media_downloaded →
  let r := bind inner (λ _, increase_context_counter c) s in
  (∀ k, k ≠ media_downloaded →
     counter (snd r) k
     = (counter s k + match fst r with
                      | Ok _ => if decide (k = c) then 1 else 0
                      | Raise _ => 0
                      end)%Z)
  ∧ (counter s media_downloaded ≤ counter (snd r) media_downloaded)%Z.
Proof.
  intros Hinner Hc. unfold bind. specialize (Hinner s).
  destruct (inner s) as [[[]|e] s1]; simpl in *;
    destruct Hinner as (n & Hn & Hmedia & Hcmd & Hmsg).
  - destruct (increase_context_counter_counts c s1) as (s2 & -> & _ & Hs2).
    simpl. split.
    + intros k Hk. rewrite Hs2. destruct k; try done; case_decide; lia.
    + rewrite Hs2. rewrite decide_False by done. lia.
  - split; [|lia]. intros k Hk. destruct k; try done; lia.
Qed.

(** X4: [commands_handled] counts exactly the commands that ran to their
    end.  Whatever the arguments, the world and the state, a run of the
    command handler adds 1 to [commands_handled] when it returns and
    nothing when it raises; it never changes [messages_handled] and never
    lowers [media_downloaded]. *)
Theorem grab_command_counts (W : World) (u : Update) (args : list string) (s : state) :
  let r := grab_command W u args s in
  counter (snd r) commands_handled
    = (counter s commands_handled + match fst r with Ok _ => 1 | Raise _ => 0 end)%Z
  ∧ counter (snd r) messages_handled = counter s messages_handled
  ∧ (counter s media_downloaded ≤ counter (snd r) media_downloaded)%Z.
Proof.
  destruct args as [|url rest].
  { simpl. split_and!; lia. }
  set (inner :=
    if Re.correct_twitter_pattern url then
      let tweet_ids := extract_tweet_ids W url in
      let* _ := match tweet_ids with
                | Some _ => tg W u (reply_text ("tweet: " +:+ url))
                | None => ret tt
                end in
      let* _ := match tweet_ids with
                | Some ids => for_each ids (grab_command_body W u)
                | None => raise TypeError
                end in
      tg W u delete
    else tg W u (reply_text invalid_url_text)).
  change (grab_command W u (url :: rest) s)
    with (bind inner (λ _, increase_context_counter commands_handled) s).
  assert (keeps media_grows inner) as Hinner.
  { unfold inner. destruct (Re.correct_twitter_pattern url); [|apply keeps_tg].
    destruct (extract_tweet_ids W url) as [ids|]; cbv zeta.
    - apply keeps_bind; [apply _|apply keeps_tg|]. intros _.
      apply keeps_bind; [apply _| |intros _; apply keeps_tg].
      apply keeps_for_each; [apply _|]. intros id. apply keeps_grab_command_body.
    - apply keeps_bind; [apply _|apply keeps_ret; apply _|]. intros _.
      apply keeps_bind; [apply _|apply keeps_raise; apply _|intros _; apply keeps_tg]. }
  clearbody inner.
  destruct (counts_after inner commands_handled s Hinner ltac:(done)) as [Hk Hm].
  cbv zeta. split_and!.
  - rewrite (Hk commands_handled) by done. destruct (fst _); [|done].
    by rewrite decide_True.
  - rewrite (Hk messages_handled) by done. destruct (fst _); [|lia].
    rewrite decide_False by done. lia.
  - exact Hm.
Qed.

Lemma grab_command_counts_witness :
  counter (snd (grab_command Sample.W Sample.command_update
                  ["https://x.com/alice/status/3"] Sample.s0)) commands_handled = 1%Z
  ∧ counter (snd (grab_command Sample.W Sample.command_update
                  ["https://x.com/alice/status/6"] Sample.s0)) commands_handled = 0%Z.
Proof.
  split.
  - exact (proj1 (grab_command_counts Sample.W Sample.command_update
                    ["https://x.com/alice/status/3"] Sample.s0)).
  - exact (proj1 (grab_command_counts Sample.W Sample.command_update
                    ["https://x.com/alice/status/6"] Sample.s0)).
Defined.

Lemma inline_query_body_total (W : World) (u : Update) (tweet_id : string)
    (results : list InlineQueryResult) (s : state) :
  ∃ r, fst (inline_query_body W u tweet_id results s) = Ok r.
Proof.
  unfold inline_query_body, try_except.
  destruct (bind _ _ s) as [[r|e] s1]; simpl; eauto.
Qed.

Lemma inline_loop_total (W : World) (u : Update) (tweet_ids : list string)
    (results : list InlineQueryResult) (s : state) :
  ∃ r, fst (for_acc tweet_ids results (inline_query_body W u) s) = Ok r.
Proof.
  revert results s. induction tweet_ids as [|id ids IH]; intros results s; simpl.
  - eauto.
  - unfold bind. destruct (inline_query_body_total W u id results s) as [r Hr].
    destruct (inline_query_body W u id results s) as [[r'|e] s1]; simpl in *;
      simplify_eq. apply IH.
Qed.

(** X5: an inline query with identifiers is always answered, once, and
    never with an empty list; the run adds exactly 1 to
    [messages_handled], leaves [commands_handled] alone and never lowers
    [media_downloaded]. *)
Theorem inline_query_answered (W : World) (u : Update) (query : string)
    (tweet_ids : list string) (s : state) :
  inline_query_text u = Some query →
  extract_tweet_ids W query = Some tweet_ids →
  let s' := snd (inline_query W u s) in
  (∃ results, results ≠ []
     ∧ calls s' = calls s ++ [(answer results, accepts W (answer results))])
  ∧ counter s' messages_handled = (counter s messages_handled + 1)%Z
  ∧ counter s' commands_handled = counter s commands_handled
  ∧ (counter s media_downloaded ≤ counter s' media_downloaded)%Z.
Proof.
  intros Hq Hids s'.
  destruct (inline_loop_total W u tweet_ids [] s) as [r Hr].
  destruct (inline_query_answer W u query tweet_ids r s Hq Hids Hr) as [Hcalls _].
  split.
  { eexists. split; [|exact Hcalls]. by destruct r. }
  assert (query ≠ "") as Hne.
  { intros ->. by rewrite extract_tweet_ids_empty in Hids. }
  unfold s', inline_query. rewrite Hq, Hids, decide_False by done.
  unfold bind.
  pose proof (keeps_for_acc media_grows tweet_ids [] (inline_query_body W u)
                (keeps_inline_query_body W u) s) as (n & Hn & Hmedia & Hcmd & Hmsg).
  destruct (for_acc tweet_ids [] (inline_query_body W u) s) as [[r'|e] s1];
    simpl in *; simplify_eq.
  destruct (increase_context_counter_counts messages_handled s1) as (s2 & -> & _ & Hc).
  unfold tg_answer, counter in *. simpl.
  pose proof (Hc messages_handled) as H1. pose proof (Hc commands_handled) as H2.
  pose proof (Hc media_downloaded) as H3.
  repeat case_decide; try done. split_and!; lia.
Qed.

Lemma inline_query_answered_witness :
  counter (snd (inline_query Sample.W
     (Sample.inline_update "https://x.com/alice/status/1 or https://x.com/bob/status/999")
     Sample.s0)) messages_handled = 1%Z.
Proof.
  apply (inline_query_answered Sample.W
    (Sample.inline_update "https://x.com/alice/status/1 or https://x.com/bob/status/999")
    "https://x.com/alice/status/1 or https://x.com/bob/status/999" ["1"; "999"] Sample.s0).
  - reflexivity.
  - vm_compute. reflexivity.
Defined.

(** An inline query that holds no identifier is never answered and leaves
    the state as it was: the empty query returns at once, any other one
    raises [TypeError] from the loop over [None]. *)
Lemma inline_query_unanswered (W : World) (u : Update) (query : string) (s : state) :
  inline_query_text u = Some query →
  extract_tweet_ids W query = None →
  inline_query W u s
  = (if decide (query = "") then Ok tt else Raise TypeError, s).
Proof.
  intros Hq Hids. unfold inline_query. rewrite Hq.
  case_decide; [done|]. by rewrite Hids.
Qed.

Lemma inline_query_unanswered_witness :
  inline_query Sample.W (Sample.inline_update "https://x.com/abcdefghijklmnop/status/1")
    Sample.s0
  = (Raise TypeError, Sample.s0).
Proof.
  apply (inline_query_unanswered Sample.W
           (Sample.inline_update "https://x.com/abcdefghijklmnop/status/1")
           "https://x.com/abcdefghijklmnop/status/1" Sample.s0);
    [reflexivity | vm_compute; reflexivity].
Defined.

(** C9 fails on the code: a query that passes the filter the handler is
    registered with and in which the extractor finds no identifier (so no
    identifier yields a decision) is not answered with the placeholder.
    The loop iterates over [None]: the handler raises [TypeError], issues
    no request and counts nothing. *)
Theorem inline_query_no_identifier_raises (W : World) (u : Update) (query : string)
    (s : state) :
  inline_query_text u = Some query →
  Re.correct_twitter_pattern query = true →
  extract_tweet_ids W query = None →
  inline_query W u s = (Raise TypeError, s).
Proof.
  intros Hq Hpat Hids. unfold inline_query. rewrite Hq, Hids.
  rewrite decide_False; [done|]. intros ->. done.
Qed.

Lemma inline_query_no_identifier_raises_witness :
  inline_query Sample.W (Sample.inline_update "https://x.com/abcdefghijklmnop/status/1")
    Sample.s0
  = (Raise TypeError, Sample.s0).
Proof.
  apply (inline_query_no_identifier_raises Sample.W
           (Sample.inline_update "https://x.com/abcdefghijklmnop/status/1")
           "https://x.com/abcdefghijklmnop/status/1" Sample.s0);
    [reflexivity | reflexivity | vm_compute; reflexivity].
Defined.

(** ** Loops that collect one result per asset *)

Section Collect.

Context {A C E : Type} (P : A → C → Prop) (g : C → E)
        (body : A → list E → M (list E)).

Hypothesis body_ok : ∀ x y acc s, P x y →
  ∃ s', body x acc s = (Ok (acc ++ [g y]), s')
        ∧ calls s' = calls s ∧ counted 1 s s'.

Lemma for_acc_collect xs ys acc s :
  Forall2 P xs ys →
  ∃ s', for_acc xs acc body s = (Ok (acc ++ map g ys), s')
        ∧ calls s' = calls s ∧ counted (Z.of_nat (length xs)) s s'.
Proof.
  intros H. revert acc s. induction H as [|x y xs ys Hxy _ IH]; intros acc s.
  - exists s. simpl. rewrite app_nil_r. split_and!; [done..|apply counted_refl].
  - simpl. unfold bind.
    destruct (body_ok x y acc s Hxy) as (s1 & -> & Hc1 & Hn1).
    destruct (IH (acc ++ [g y]) s1) as (s2 & -> & Hc2 & Hn2).
    exists s2. rewrite <- app_assoc. split_and!; [done|congruence|].
    replace (Z.of_nat (S (length xs))) with (1 + Z.of_nat (length xs))%Z by lia.
    by eapply counted_trans.
Qed.

Lemma for_acc_collect_fail pre ys x post e acc s :
  Forall2 P pre ys →
  (∀ acc' s', body x acc' s' = (Raise e, s')) →
  ∃ s', for_acc (pre ++ x :: post) acc body s = (Raise e, s')
        ∧ calls s' = calls s ∧ counted (Z.of_nat (length pre)) s s'.
Proof.
  intros Hpre Hx. rewrite for_acc_app. unfold bind.
  destruct (for_acc_collect pre ys acc s Hpre) as (s1 & -> & Hc & Hn).
  simpl. unfold bind. rewrite Hx. eauto.
Qed.

End Collect.

Lemma get_photos_body_ok (W : World) photo final acc s :
  photo_resolves W photo final →
  ∃ s', get_photos_body W photo acc s
        = (Ok (acc ++ [(λ f, InlineQueryResultPhoto f f) final]), s')
        ∧ calls s' = calls s ∧ counted 1 s s'.
Proof.
  intros (url & Hurl & Hfinal).
  unfold get_photos_body, bind, lift, getitem. rewrite Hurl, Hfinal.
  destruct (increase_media_counted s) as (s' & -> & Hc & Hn). eauto.
Qed.

Lemma get_photos_body_fail (W : World) photo e acc s :
  photo_fails W photo e → get_photos_body W photo acc s = (Raise e, s).
Proof.
  unfold get_photos_body, bind, lift, getitem.
  intros [[-> ->]|(url & -> & ->)]; reflexivity.
Qed.

(** X6: when every photo has a URL and the upgrader returns for each, the
    inline resolver returns one photo result per descriptor, in source
    order, each showing the URL the upgrader chose as photo and as
    thumbnail; it issues no request and adds the number of photos to
    [media_downloaded]. *)
Theorem get_photos_all (W : World) (photos : list descriptor) (finals : list string)
    (s : state) :
  Forall2 (photo_resolves W) photos finals →
  ∃ s', get_photos W photos s
        = (Ok (map (λ f, InlineQueryResultPhoto f f) finals), s')
        ∧ calls s' = calls s ∧ counted (Z.of_nat (length photos)) s s'.
Proof.
  intros H. unfold get_photos.
  exact (for_acc_collect (photo_resolves W) _ (get_photos_body W)
           (get_photos_body_ok W) photos finals [] s H).
Qed.

Lemma get_photos_all_witness :
  ∃ s', get_photos Sample.W
          [Sample.photo "https://pbs.twimg.com/media/one.jpg";
           Sample.photo "https://pbs.twimg.com/media/two.jpg"] Sample.s0
        = (Ok [InlineQueryResultPhoto
                 "https://pbs.twimg.com/media/one.jpg?format=jpg&name=orig"
                 "https://pbs.twimg.com/media/one.jpg?format=jpg&name=orig";
               InlineQueryResultPhoto "https://pbs.twimg.com/media/two.jpg"
                                      "https://pbs.twimg.com/media/two.jpg"], s')
        ∧ calls s' = [] ∧ counted 2 Sample.s0 s'.
Proof.
  exact (get_photos_all Sample.W
           [Sample.photo "https://pbs.twimg.com/media/one.jpg";
            Sample.photo "https://pbs.twimg.com/media/two.jpg"]
           ["https://pbs.twimg.com/media/one.jpg?format=jpg&name=orig";
            "https://pbs.twimg.com/media/two.jpg"] Sample.s0
           ltac:(repeat constructor; eexists; split; reflexivity)).
Defined.

(** X7: a command reply sends all the photos of a tweet in one grouped
    request, in source order, each with the URL the upgrader chose, and
    adds their number to [media_downloaded]; the handler returns when the
    transport accepts the group and raises [BadRequest] otherwise. *)
Theorem command_send_photos_grouped (W : World) (u : Update)
    (photos : list descriptor) (finals : list string) (s : state) :
  effective_message u = true →
  Forall2 (photo_resolves W) photos finals →
  let r := command_send_photos W u photos s in
  fst r = (if accepts W (reply_media_group finals) then Ok tt else Raise BadRequest)
  ∧ calls (snd r)
    = calls s ++ [(reply_media_group finals, accepts W (reply_media_group finals))]
  ∧ counted (Z.of_nat (length photos)) s (snd r).
Proof.
  intros Hmsg H. unfold command_send_photos, bind.
  set (body := λ (p : descriptor) (photo_group : list string), _).
  destruct (for_acc_collect (photo_resolves W) id body) with
    (xs := photos) (ys := finals) (acc := @nil string) (s := s)
    as (s1 & Hrun & Hc & Hn); [|done|].
  { intros p final acc s0 (url & Hurl & Hfinal).
    unfold body, bind, lift, getitem. rewrite Hurl, Hfinal.
    destruct (increase_media_counted s0) as (s' & -> & Hc & Hn). eauto. }
  rewrite Hrun. simpl. rewrite map_id. unfold tg. rewrite Hmsg. simpl.
  split_and!; [done|by rewrite Hc|].
  destruct Hn as (? & ? & ?). unfold counted, counter in *. simpl. done.
Qed.

Lemma command_send_photos_grouped_witness :
  calls (snd (command_send_photos Sample.W Sample.command_update
                [Sample.photo "https://pbs.twimg.com/media/one.jpg";
                 Sample.photo "https://pbs.twimg.com/media/two.jpg"] Sample.s0))
  = [(reply_media_group ["https://pbs.twimg.com/media/one.jpg?format=jpg&name=orig";
                         "https://pbs.twimg.com/media/two.jpg"], true)].
Proof.
  exact (proj1 (proj2 (command_send_photos_grouped Sample.W Sample.command_update
           [Sample.photo "https://pbs.twimg.com/media/one.jpg";
            Sample.photo "https://pbs.twimg.com/media/two.jpg"]
           ["https://pbs.twimg.com/media/one.jpg?format=jpg&name=orig";
            "https://pbs.twimg.com/media/two.jpg"] Sample.s0 eq_refl
           ltac:(repeat constructor; eexists; split; reflexivity)))).
Defined.

(** X8: one photo that cannot be resolved (no URL, or the upgrader raises)
    loses the whole group of a command reply: the handler raises that
    exception, sends nothing, not even the photos resolved before it, and
    yet [media_downloaded] has counted those. *)
Theorem command_send_photos_all_or_nothing (W : World) (u : Update)
    (before after : list descriptor) (photo : descriptor) (finals : list string)
    (e : exn) (s : state) :
  Forall2 (photo_resolves W) before finals →
  photo_fails W photo e →
  let r := command_send_photos W u (before ++ photo :: after) s in
  fst r = Raise e
  ∧ calls (snd r) = calls s
  ∧ counted (Z.of_nat (length before)) s (snd r).
Proof.
  intros Hbefore Hfail. unfold command_send_photos, bind.
  set (body := λ (p : descriptor) (photo_group : list string), _).
  destruct (for_acc_collect_fail (photo_resolves W) id body) with
    (pre := before) (ys := finals) (x := photo) (post := after) (e := e)
    (acc := @nil string) (s := s) as (s1 & Hrun & Hc & Hn); [|done| |].
  { intros p final acc s0 (url & Hurl & Hfinal).
    unfold body, bind, lift, getitem. rewrite Hurl, Hfinal.
    destruct (increase_media_counted s0) as (s' & -> & Hc & Hn). eauto. }
  { intros acc s0. unfold body, bind, lift, getitem.
    destruct Hfail as [[-> ->]|(url & -> & ->)]; reflexivity. }
  rewrite Hrun. simpl. done.
Qed.

Lemma command_send_photos_all_or_nothing_witness :
  let r := command_send_photos Sample.W Sample.command_update
             [Sample.photo "https://pbs.twimg.com/media/one.jpg";
              Sample.photo "https://pbs.twimg.com/media/down.jpg";
              Sample.photo "https://pbs.twimg.com/media/two.jpg"] Sample.s0 in
  fst r = Raise ConnectionError ∧ calls (snd r) = [] ∧ counted 1 Sample.s0 (snd r).
Proof.
  exact (command_send_photos_all_or_nothing Sample.W Sample.command_update
           [Sample.photo "https://pbs.twimg.com/media/one.jpg"]
           [Sample.photo "https://pbs.twimg.com/media/two.jpg"]
           (Sample.photo "https://pbs.twimg.com/media/down.jpg")
           ["https://pbs.twimg.com/media/one.jpg?format=jpg&name=orig"]
           ConnectionError Sample.s0
           ltac:(repeat constructor; eexists; split; reflexivity)
           ltac:(right; eexists; split; reflexivity)).
Defined.

(** X9: the inline resolver of GIFs returns one result per descriptor, in
    source order, with its thumbnail and URL, and counts each; a
    descriptor that lacks [url] or [thumbnail_url] makes it raise
    [KeyError], with the descriptors before it counted. *)
Theorem get_gifs_all (gifs : list descriptor) (results : list InlineQueryResult)
    (s : state) :
  Forall2 gif_result gifs results →
  (∃ s', get_gifs gifs s = (Ok results, s')
         ∧ calls s' = calls s ∧ counted (Z.of_nat (length gifs)) s s')
  ∧ ∀ gif after,
      gif !! "url" = None ∨ gif !! "thumbnail_url" = None →
      ∃ s', get_gifs (gifs ++ gif :: after) s = (Raise KeyError, s')
            ∧ calls s' = calls s ∧ counted (Z.of_nat (length gifs)) s s'.
Proof.
  intros H.
  assert (Hbody : ∀ gif r acc s0, gif_result gif r →
            ∃ s', get_gifs_body gif acc s0 = (Ok (acc ++ [id r]), s')
                  ∧ calls s' = calls s0 ∧ counted 1 s0 s').
  { intros gif r acc s0 (url & th & Hurl & Hth & ->).
    unfold get_gifs_body, bind, lift, getitem. rewrite Hurl, Hth.
    destruct (increase_media_counted s0) as (s' & -> & Hc & Hn). eauto. }
  split.
  - destruct (for_acc_collect gif_result id get_gifs_body Hbody gifs results [] s H)
      as (s' & Hrun & Hc & Hn).
    exists s'. unfold get_gifs. rewrite Hrun. simpl. by rewrite map_id.
  - intros gif after Hmissing. unfold get_gifs.
    apply (for_acc_collect_fail gif_result id get_gifs_body Hbody gifs results); [done|].
    intros acc s0. unfold get_gifs_body, bind, lift, getitem.
    destruct Hmissing as [->| ->]; [done|]. by destruct (gif !! "url").
Qed.

Lemma get_gifs_all_witness :
  ∃ s', get_gifs [<["url" := "g.mp4"]> (<["thumbnail_url" := "g.jpg"]> ∅);
                  <["url" := "h.mp4"]> ∅] Sample.s0
        = (Raise KeyError, s')
        ∧ calls s' = [] ∧ counted 1 Sample.s0 s'.
Proof.
  exact (proj2 (get_gifs_all [<["url" := "g.mp4"]> (<["thumbnail_url" := "g.jpg"]> ∅)]
                  [InlineQueryResultGif "g.jpg" "g.mp4"] Sample.s0
                  ltac:(repeat constructor; by do 2 eexists))
               (<["url" := "h.mp4"]> ∅) [] ltac:(right; reflexivity)).
Defined.

(** ** Videos *)

Lemma get_videos_body_unprobed (W : World) (u : Update) (video : descriptor)
    (video_url : string) (group : list InlineQueryResult) (s : state) :
  effective_message u = false →
  video !! "url" = Some video_url →
  probe_fails W video_url →
  get_videos_body W u video group s = (Raise AttributeError, s).
Proof.
  intros Hmsg Hurl (e & He & Hcaught).
  unfold get_videos_body, bind, lift, try_except, getitem, tg_not_awaited, raise.
  by rewrite Hurl, He, Hcaught, Hmsg.
Qed.

Lemma for_acc_raises {A B} (xs : list A) (x : A) (body : A → B → M B) (acc : B)
    (s : state) :
  x ∈ xs →
  (∀ acc' s', ∃ e, fst (body x acc' s') = Raise e) →
  ∃ e, fst (for_acc xs acc body s) = Raise e.
Proof.
  intros Hin Hx. revert acc s.
  induction xs as [|y xs IH]; intros acc s; [by apply elem_of_nil in Hin|].
  simpl. unfold bind.
  apply elem_of_cons in Hin as [<-|Hin].
  - destruct (Hx acc s) as [e He].
    destruct (body x acc s) as [[b|e'] s1]; simpl in *; simplify_eq. eauto.
  - destruct (body y acc s) as [[b|e'] s1]; simpl; [by apply IH|eauto].
Qed.

(** X10: in an inline query (the update carries no message) one video
    whose size probe fails makes the video resolver raise, whatever the
    other videos of the list are: the fallback reply is attempted on a
    message that does not exist. *)
Theorem get_videos_inline_probe_failure (W : World) (u : Update)
    (videos : list descriptor) (video : descriptor) (video_url : string) (s : state) :
  effective_message u = false →
  video ∈ videos →
  video !! "url" = Some video_url →
  probe_fails W video_url →
  ∃ e, fst (get_videos W u videos s) = Raise e.
Proof.
  intros Hmsg Hin Hurl Hfail. unfold get_videos.
  apply (for_acc_raises videos video); [done|].
  intros acc s'. exists AttributeError.
  by rewrite (get_videos_body_unprobed W u video video_url).
Qed.

Lemma get_videos_inline_probe_failure_witness :
  ∃ e, fst (get_videos Sample.W (Sample.inline_update "q")
              [Sample.video "https://video.twimg.com/fits.mp4";
               Sample.video "https://video.twimg.com/gone.mp4"] Sample.s0) = Raise e.
Proof.
  apply (get_videos_inline_probe_failure Sample.W (Sample.inline_update "q") _
           (Sample.video "https://video.twimg.com/gone.mp4")
           "https://video.twimg.com/gone.mp4" Sample.s0 eq_refl).
  - apply list_elem_of_In. right. left. reflexivity.
  - reflexivity.
  - exists HTTPError. split; reflexivity.
Defined.

(** X11: so an inline query for one tweet that has only videos, one of
    which cannot be probed, is answered with the "nothing found"
    placeholder alone, even when its other videos could be delivered. *)
Theorem inline_query_unprobed_video (W : World) (u : Update) (query tweet_id : string)
    (media : list descriptor) (video : descriptor) (video_url : string) (s : state) :
  inline_query_text u = Some query →
  effective_message u = false →
  extract_tweet_ids W query = Some [tweet_id] →
  scrape_media W tweet_id = Ok media →
  Forall (has_type "video") media →
  video ∈ media →
  video !! "url" = Some video_url →
  probe_fails W video_url →
  calls (snd (inline_query W u s))
  = calls s ++ [(answer [nothing_found], accepts W (answer [nothing_found]))].
Proof.
  intros Hq Hmsg Hids Hfetch Hvideos Hin Hurl Hfail.
  assert (skipped W u tweet_id) as Hskip.
  { right. right. exists media. split; [done|]. intros s0.
    assert (Forall (λ m, is_Some (m !! "type")) media) as Hty.
    { eapply Forall_impl; [exact Hvideos|]. intros m Hm. by eexists. }
    assert (∀ ty, ty ≠ "video" → filter (has_type ty) media = []) as Hnone.
    { intros ty Hne. clear -Hvideos Hne.
      induction Hvideos as [|m l Hm _ IH]; [done|].
      rewrite filter_cons_False; [done|]. unfold has_type in *. congruence. }
    assert (filter (has_type "video") media = media) as Hall.
    { clear -Hvideos. induction Hvideos as [|m l Hm _ IH]; [done|].
      by rewrite filter_cons_True, IH. }
    unfold get_media_for_inline, bind, lift, get_media.
    rewrite !of_type_filter by done.
    rewrite (Hnone "image"), (Hnone "gif"), Hall by done.
    destruct media as [|m media]; [by apply elem_of_nil in Hin|].
    by apply (get_videos_inline_probe_failure W u _ video video_url). }
  assert (fst (for_acc [tweet_id] [] (inline_query_body W u) s) = Ok []) as Hloop.
  { apply inline_loop_empty. intros id Hid. apply list_elem_of_singleton in Hid.
    subst id. by left. }
  by destruct (inline_query_answer W u query [tweet_id] [] s Hq Hids Hloop).
Qed.

Lemma inline_query_unprobed_video_witness :
  calls (snd (inline_query Scenario.W
                (Sample.inline_update "https://x.com/alice/status/7") Sample.s0))
  = [(answer [nothing_found], true)].
Proof.
  exact (inline_query_unprobed_video Scenario.W
           (Sample.inline_update "https://x.com/alice/status/7")
           "https://x.com/alice/status/7" "7"
           [Sample.video "https://video.twimg.com/fits.mp4";
            Sample.video "https://video.twimg.com/gone.mp4"]
           (Sample.video "https://video.twimg.com/gone.mp4")
           "https://video.twimg.com/gone.mp4" Sample.s0
           eq_refl eq_refl eq_refl eq_refl
           ltac:(repeat constructor)
           ltac:(apply list_elem_of_In; right; left; reflexivity)
           eq_refl
           ltac:(exists HTTPError; split; reflexivity)).
Defined.

(** X12: in a command reply a video whose size probe fails (no response,
    unsuccessful status, no [Content-Length]) is answered with the "error
    occurred" text, which ends with the raw URL; when the transport
    accepts the text the loop goes on and the video is counted. *)
Theorem command_send_videos_probe_failure (W : World) (u : Update)
    (video : descriptor) (video_url : string) (s : state) :
  effective_message u = true →
  video !! "url" = Some video_url →
  probe_fails W video_url →
  let r := command_send_videos_body W u video s in
  let a := reply_text (error_text video_url) in
  calls (snd r) = calls s ++ [(a, accepts W a)]
  ∧ carries_url a video_url
  ∧ (accepts W a = true → fst r = Ok tt ∧ counted 1 s (snd r))
  ∧ (accepts W a = false → fst r = Raise BadRequest ∧ counted 0 s (snd r)).
Proof.
  intros Hmsg Hurl (e & He & Hcaught).
  unfold command_send_videos_body, bind, lift, try_except, getitem, tg.
  rewrite Hurl, He, Hcaught, Hmsg. simpl.
  assert (carries_url (reply_text (error_text video_url)) video_url) as Hcarries.
  { right. by exists ("Error occurred when trying to send video. Direct link:" +:+ nl). }
  destruct (accepts W (reply_text (error_text video_url))); simpl.
  - destruct (increase_media_counted
                (mkState (stats s)
                   (calls s ++ [(reply_text (error_text video_url), true)])))
      as (s' & -> & Hc & Hn).
    simpl. split_and!; [done|done| |done].
    intros _. split; [done|]. destruct Hn as (? & ? & ?).
    by unfold counted, counter in *.
  - split_and!; [done|done|done|].
    intros _. split; [done|]. by apply counted_same_stats.
Qed.

Lemma command_send_videos_probe_failure_witness :
  calls (snd (command_send_videos_body Sample.W Sample.command_update
                (Sample.video "https://video.twimg.com/gone.mp4") Sample.s0))
  = [(reply_text (error_text "https://video.twimg.com/gone.mp4"), true)].
Proof.
  exact (proj1 (command_send_videos_probe_failure Sample.W Sample.command_update
           (Sample.video "https://video.twimg.com/gone.mp4")
           "https://video.twimg.com/gone.mp4" Sample.s0 eq_refl eq_refl
           ltac:(exists HTTPError; split; reflexivity))).
Defined.

(** X13: a [Content-Length] that is not a number is not among the caught
    exceptions: in both modes the [ValueError] leaves the resolver at that
    video, before any request and before the video is counted, and the
    videos after it are not reached. *)
Theorem malformed_content_length_propagates (W : World) (u : Update)
    (video : descriptor) (video_url : string) (rest : list descriptor) (s : state) :
  video !! "url" = Some video_url →
  video_probe W video_url = Response true Malformed →
  command_send_videos W u (video :: rest) s = (Raise ValueError, s)
  ∧ get_videos W u (video :: rest) s = (Raise ValueError, s).
Proof.
  intros Hurl Hprobe.
  unfold command_send_videos, get_videos. simpl.
  unfold command_send_videos_body, get_videos_body, bind, lift, try_except,
    getitem, video_size.
  by rewrite Hurl, Hprobe.
Qed.

Lemma malformed_content_length_propagates_witness :
  let W := {| redirect _ := None; api _ := NoResponse; head_probe _ := NoResponse;
              video_probe _ := Response true Malformed;
              replace_query _ _ := None; accepts _ := true |} in
  command_send_videos W Sample.command_update
    [Sample.video "https://video.twimg.com/odd.mp4"; Sample.video "v2"] Sample.s0
  = (Raise ValueError, Sample.s0).
Proof.
  intros W.
  exact (proj1 (malformed_content_length_propagates W Sample.command_update
                  (Sample.video "https://video.twimg.com/odd.mp4")
                  "https://video.twimg.com/odd.mp4" [Sample.video "v2"] Sample.s0
                  eq_refl eq_refl)).
Defined.

Lemma video_request_carries_url (W : World) (video_url : string) (a : action) :
  video_request W video_url = Some a → carries_url a video_url.
Proof.
  unfold video_request, carries_url.
  destruct (video_size W video_url) as [n|e].
  - destruct (n <=? size_limit)%Z; intros [= <-]; [by left|].
    right. by exists ("Video is too large for Telegram upload. Link:" +:+ nl).
  - destruct (video_errors e); [|done]. intros [= <-].
    right. by exists ("Error occurred when trying to send video. Direct link:" +:+ nl).
Qed.

Lemma command_send_videos_body_request (W : World) (u : Update) (video : descriptor)
    (video_url : string) (a : action) (s : state) :
  effective_message u = true →
  video !! "url" = Some video_url →
  video_request W video_url = Some a →
  accepts W a = true →
  ∃ s', command_send_videos_body W u video s = (Ok tt, s')
        ∧ calls s' = calls s ++ [(a, true)] ∧ counted 1 s s'.
Proof.
  intros Hmsg Hurl Hreq Hacc.
  unfold video_request in Hreq.
  unfold command_send_videos_body, getitem. rewrite Hurl.
  unfold bind, lift, try_except.
  destruct (video_size W video_url) as [n|e]; simpl.
  - destruct (n <=? size_limit)%Z; simplify_eq; unfold tg; rewrite Hmsg, Hacc; simpl;
      match goal with |- context [increase_context_counter _ ?s0] =>
        destruct (increase_media_counted s0) as (s' & -> & Hc & Hn)
      end;
      exists s'; (split_and!; [done..|]);
      destruct Hn as (? & ? & ?); by unfold counted, counter in *.
  - destruct (video_errors e); [|done]. simplify_eq.
    unfold tg. rewrite Hmsg, Hacc. simpl.
    destruct (increase_media_counted
                (mkState (stats s) (calls s ++ [(reply_text (error_text video_url), true)])))
      as (s' & -> & Hc & Hn).
    exists s'. split_and!; [done..|].
    destruct Hn as (? & ? & ?). by unfold counted, counter in *.
Qed.

(** X14: a command reply over videos that each have a [url] and whose
    size probe reports a length or fails with an exception the loop
    catches (no response, an unsuccessful status, no [Content-Length]):
    when the transport accepts what is sent, the loop returns after
    exactly one request per video, in source order, each carrying the URL
    of its video (the video itself, the "too large" text or the "error
    occurred" text), and [media_downloaded] has grown by the number of
    videos. *)
Theorem command_send_videos_one_request_each (W : World) (u : Update)
    (videos : list descriptor) (requests : list action) (s : state) :
  effective_message u = true →
  Forall2 (λ video a, ∃ video_url,
             video !! "url" = Some video_url
             ∧ video_request W video_url = Some a ∧ accepts W a = true)
          videos requests →
  (∃ s', command_send_videos W u videos s = (Ok tt, s')
         ∧ calls s' = calls s ++ map (λ a, (a, true)) requests
         ∧ counted (Z.of_nat (length videos)) s s')
  ∧ Forall2 (λ video a, ∃ video_url,
               video !! "url" = Some video_url ∧ carries_url a video_url)
            videos requests.
Proof.
  intros Hmsg H. split.
  - unfold command_send_videos. revert s.
    induction H as [|video a videos requests (url & Hurl & Hreq & Hacc) _ IH];
      intros s; simpl.
    + exists s. rewrite app_nil_r. split_and!; [done..|apply counted_refl].
    + unfold bind.
      destruct (command_send_videos_body_request W u video url a s Hmsg Hurl Hreq Hacc)
        as (s1 & -> & Hc1 & Hn1).
      destruct (IH s1) as (s2 & -> & Hc2 & Hn2).
      exists s2. split_and!; [done| |].
      * rewrite Hc2, Hc1, <- app_assoc. done.
      * replace (Z.of_nat (S (length videos)))
          with (1 + Z.of_nat (length videos))%Z by lia.
        by eapply counted_trans.
  - eapply Forall2_impl; [exact H|].
    intros video a (url & Hurl & Hreq & _). exists url.
    split; [done|]. by eapply video_request_carries_url.
Qed.

Lemma command_send_videos_one_request_each_witness :
  ∃ s', command_send_videos Sample.W Sample.command_update
          [Sample.video "https://video.twimg.com/big.mp4";
           Sample.video "https://video.twimg.com/gone.mp4";
           Sample.video "https://video.twimg.com/fits.mp4"] Sample.s0 = (Ok tt, s')
        ∧ calls s'
          = [(reply_text (too_large_text "https://video.twimg.com/big.mp4"), true);
             (reply_text (error_text "https://video.twimg.com/gone.mp4"), true);
             (reply_video "https://video.twimg.com/fits.mp4", true)]
        ∧ counted 3 Sample.s0 s'.
Proof.
  exact (proj1 (command_send_videos_one_request_each Sample.W Sample.command_update
    [Sample.video "https://video.twimg.com/big.mp4";
     Sample.video "https://video.twimg.com/gone.mp4";
     Sample.video "https://video.twimg.com/fits.mp4"]
    [reply_text (too_large_text "https://video.twimg.com/big.mp4");
     reply_text (error_text "https://video.twimg.com/gone.mp4");
     reply_video "https://video.twimg.com/fits.mp4"]
    Sample.s0 eq_refl
    ltac:(repeat constructor; eexists; split_and!; reflexivity))).
Defined.

(** ** GIFs in a command reply *)

Lemma for_each_app {A} (l1 l2 : list A) (body : A → M unit) (s : state) :
  for_each (l1 ++ l2) body s = bind (for_each l1 body) (λ _, for_each l2 body) s.
Proof.
  revert s. induction l1 as [|x l1 IH]; intros s; simpl.
  - reflexivity.
  - unfold bind in *. destruct (body x s) as [[[]|e] s1]; [|done]. by rewrite IH.
Qed.

(** X15: a command reply sends the GIFs one by one, in source order, and
    counts each GIF before sending it: when the transport rejects one, the
    handler raises [BadRequest] with that GIF already counted, and the GIFs
    after it are neither sent nor counted. *)
Theorem command_send_gifs_counts_before_sending (W : World) (u : Update)
    (gifs : list descriptor) (urls : list string) (s : state) :
  effective_message u = true →
  Forall2 (λ gif url, gif !! "url" = Some url
                      ∧ accepts W (reply_animation url) = true) gifs urls →
  (∃ s', command_send_gifs W u gifs s = (Ok tt, s')
         ∧ calls s' = calls s ++ map (λ url, (reply_animation url, true)) urls
         ∧ counted (Z.of_nat (length gifs)) s s')
  ∧ ∀ gif url after,
      gif !! "url" = Some url →
      accepts W (reply_animation url) = false →
      ∃ s', command_send_gifs W u (gifs ++ gif :: after) s = (Raise BadRequest, s')
            ∧ calls s' = calls s ++ map (λ url, (reply_animation url, true)) urls
                                 ++ [(reply_animation url, false)]
            ∧ counted (Z.of_nat (length gifs) + 1) s s'.
Proof.
  intros Hmsg H. unfold command_send_gifs.
  set (body := λ gif : descriptor, _).
  assert (Hbody : ∀ gif url s0, gif !! "url" = Some url →
            ∃ s', body gif s0
                  = (if accepts W (reply_animation url) then Ok tt else Raise BadRequest, s')
                  ∧ calls s' = calls s0 ++ [(reply_animation url,
                                             accepts W (reply_animation url))]
                  ∧ counted 1 s0 s').
  { intros gif url s0 Hurl. unfold body, bind, lift, getitem. rewrite Hurl.
    destruct (increase_media_counted s0) as (s1 & -> & Hc1 & Hn1).
    unfold tg. rewrite Hmsg. eexists. split_and!; [done|by simpl; rewrite Hc1|].
    destruct Hn1 as (? & ? & ?). by unfold counted, counter in *. }
  clearbody body.
  assert (Hall : ∃ s', for_each gifs body s = (Ok tt, s')
            ∧ calls s' = calls s ++ map (λ url, (reply_animation url, true)) urls
            ∧ counted (Z.of_nat (length gifs)) s s').
  { revert s.
    induction H as [|gif url gifs urls [Hurl Hacc] _ IH]; intros s; simpl.
    - exists s. rewrite app_nil_r. split_and!; [done..|apply counted_refl].
    - unfold bind.
      destruct (Hbody gif url s Hurl) as (s1 & -> & Hc1 & Hn1). rewrite Hacc in *.
      destruct (IH s1) as (s2 & -> & Hc2 & Hn2).
      exists s2. split_and!; [done| |].
      + by rewrite Hc2, Hc1, <- app_assoc.
      + replace (Z.of_nat (S (length gifs)))
          with (1 + Z.of_nat (length gifs))%Z by lia.
        by eapply counted_trans. }
  split; [exact Hall|].
  intros gif url after Hurl Hrej.
  destruct Hall as (s1 & Hrun & Hc1 & Hn1).
  rewrite for_each_app. unfold bind at 1. rewrite Hrun. simpl. unfold bind.
  destruct (Hbody gif url s1 Hurl) as (s2 & -> & Hc2 & Hn2). rewrite Hrej in *.
  exists s2. split_and!; [done| |].
  - by rewrite Hc2, Hc1, <- app_assoc.
  - by eapply counted_trans.
Qed.

Lemma command_send_gifs_counts_before_sending_witness :
  let W := {| redirect _ := None; api _ := NoResponse; head_probe _ := NoResponse;
              video_probe _ := NoResponse; replace_query _ _ := None;
              accepts a := match a with
                           | reply_animation url => bool_decide (url ≠ "bad.mp4")
                           | _ => true
                           end |} in
  ∃ s', command_send_gifs W Sample.command_update
          [<["url" := "ok.mp4"]> ∅; <["url" := "bad.mp4"]> ∅; <["url" := "late.mp4"]> ∅]
          Sample.s0 = (Raise BadRequest, s')
        ∧ calls s' = [(reply_animation "ok.mp4", true); (reply_animation "bad.mp4", false)]
        ∧ counted 2 Sample.s0 s'.
Proof.
  intros W.
  exact (proj2 (command_send_gifs_counts_before_sending W Sample.command_update
                  [<["url" := "ok.mp4"]> ∅] ["ok.mp4"] Sample.s0 eq_refl
                  ltac:(repeat constructor))
               (<["url" := "bad.mp4"]> ∅) "bad.mp4" [<["url" := "late.mp4"]> ∅]
               eq_refl eq_refl).
Defined.

(** ** The command handler on its edges *)

(** X16: an argument that is not a tweet URL is answered with the "not a
    valid twitter URL" text and nothing else: no other request, no media
    counted; the command is counted when the transport accepts the
    text. *)
Theorem grab_command_invalid_url (W : World) (u : Update) (url : string)
    (rest : list string) (s : state) :
  effective_message u = true →
  Re.correct_twitter_pattern url = false →
  let r := grab_command W u (url :: rest) s in
  let ok := accepts W (reply_text invalid_url_text) in
  fst r = (if ok then Ok tt else Raise BadRequest)
  ∧ calls (snd r) = calls s ++ [(reply_text invalid_url_text, ok)]
  ∧ counter (snd r) commands_handled
    = (counter s commands_handled + if ok then 1 else 0)%Z
  ∧ counter (snd r) media_downloaded = counter s media_downloaded
  ∧ counter (snd r) messages_handled = counter s messages_handled.
Proof.
  intros Hmsg Hpat. unfold grab_command, bind, ret, tg. rewrite Hpat, Hmsg.
  destruct (accepts W (reply_text invalid_url_text)); simpl.
  - destruct (increase_context_counter_counts commands_handled
                (mkState (stats s) (calls s ++ [(reply_text invalid_url_text, true)])))
      as (s' & -> & Hc & Hk).
    simpl. rewrite !Hk. repeat case_decide; try done.
    unfold counter. simpl. split_and!; [done|done|lia..].
  - unfold counter. simpl. split_and!; [done|done|lia..].
Qed.

Lemma grab_command_invalid_url_witness :
  calls (snd (grab_command Sample.W Sample.command_update ["hello"] Sample.s0))
  = [(reply_text invalid_url_text, true)].
Proof.
  exact (proj1 (proj2 (grab_command_invalid_url Sample.W Sample.command_update
                         "hello" [] Sample.s0 eq_refl eq_refl))).
Defined.

(** A URL that passes the handler's check and in which the extractor
    finds no identifier makes the handler raise [TypeError] from the loop
    over [None]: nothing is sent, nothing is counted, the command message
    is not deleted. *)
Lemma grab_command_no_identifier (W : World) (u : Update) (url : string)
    (rest : list string) (s : state) :
  Re.correct_twitter_pattern url = true →
  extract_tweet_ids W url = None →
  grab_command W u (url :: rest) s = (Raise TypeError, s).
Proof.
  intros Hpat Hids. unfold grab_command, bind, ret, raise. by rewrite Hpat, Hids.
Qed.

Lemma grab_command_no_identifier_witness :
  grab_command Sample.W Sample.command_update
    ["https://x.com/abcdefghijklmnop/status/1"] Sample.s0
  = (Raise TypeError, Sample.s0).
Proof.
  exact (grab_command_no_identifier Sample.W Sample.command_update
           "https://x.com/abcdefghijklmnop/status/1" [] Sample.s0 eq_refl eq_refl).
Defined.

(** X17: a valid URL whose tweets all come back without media gets the
    "tweet:" echo and the deletion of the command message, and no word
    that nothing was found; the command is counted and no media is. *)
Theorem grab_command_no_media (W : World) (u : Update) (url : string)
    (rest tweet_ids : list string) (s : state) :
  effective_message u = true →
  Re.correct_twitter_pattern url = true →
  extract_tweet_ids W url = Some tweet_ids →
  Forall (λ tweet_id, scrape_media W tweet_id = Ok []) tweet_ids →
  accepts W (reply_text ("tweet: " +:+ url)) = true →
  accepts W delete = true →
  ∃ s', grab_command W u (url :: rest) s = (Ok tt, s')
        ∧ calls s' = calls s ++ [(reply_text ("tweet: " +:+ url), true); (delete, true)]
        ∧ counter s' commands_handled = (counter s commands_handled + 1)%Z
        ∧ counter s' media_downloaded = counter s media_downloaded
        ∧ counter s' messages_handled = counter s messages_handled.
Proof.
  intros Hmsg Hpat Hids Hempty Hecho Hdel.
  assert (Hloop : ∀ s0, for_each tweet_ids (grab_command_body W u) s0 = (Ok tt, s0)).
  { clear Hids. induction Hempty as [|id ids Hid _ IH]; intros s0; [done|].
    simpl. unfold bind at 1. unfold grab_command_body at 1, bind, lift.
    rewrite Hid. simpl. apply IH. }
  unfold grab_command, bind, ret, tg. rewrite Hpat, Hids, Hmsg, Hecho. simpl.
  rewrite Hloop, Hdel. simpl.
  match goal with |- context [increase_context_counter _ ?s0] =>
    destruct (increase_context_counter_counts commands_handled s0)
      as (s' & -> & Hc & Hk)
  end.
  exists s'. rewrite !Hk. repeat case_decide; try done.
  unfold counter. simpl. split_and!; [done| |lia..].
  rewrite Hc. simpl. by rewrite <- app_assoc.
Qed.

Lemma grab_command_no_media_witness :
  ∃ s', grab_command Sample.W Sample.command_update
          ["https://x.com/alice/status/5"] Sample.s0 = (Ok tt, s')
        ∧ calls s' = [(reply_text "tweet: https://x.com/alice/status/5", true);
                      (delete, true)]
        ∧ counter s' commands_handled = 1%Z
        ∧ counter s' media_downloaded = 0%Z
        ∧ counter s' messages_handled = 0%Z.
Proof.
  exact (grab_command_no_media Sample.W Sample.command_update
           "https://x.com/alice/status/5" [] ["5"] Sample.s0
           eq_refl eq_refl eq_refl ltac:(repeat constructor) eq_refl eq_refl).
Defined.

(** ** One kind of media per inline answer *)

(** X18: a tweet that has photos is answered inline with its photos
    alone, one result per photo in source order: its GIFs and videos are
    neither resolved, probed nor counted. *)
Theorem get_media_for_inline_photos_first (W : World) (u : Update)
    (media : list descriptor) (finals : list string) (s : state) :
  Forall (λ m, is_Some (m !! "type")) media →
  Forall2 (photo_resolves W) (filter (has_type "image") media) finals →
  finals ≠ [] →
  ∃ s', get_media_for_inline W u media s
        = (Ok (map (λ f, InlineQueryResultPhoto f f) finals), s')
        ∧ calls s' = calls s
        ∧ counted (Z.of_nat (length finals)) s s'.
Proof.
  intros Hty Hres Hne.
  unfold get_media_for_inline, bind, lift, get_media.
  rewrite !of_type_filter by done.
  pose proof (Forall2_length _ _ _ Hres) as Hlen.
  destruct (for_acc_collect (photo_resolves W) _ (get_photos_body W)
              (get_photos_body_ok W) _ finals [] s Hres) as (s' & Hrun & Hc & Hn).
  destruct (filter (has_type "image") media) as [|p photos] eqn:E.
  { destruct finals; [done|]. simpl in Hlen. lia. }
  unfold get_photos. rewrite Hrun. exists s'. rewrite <- Hlen. done.
Qed.

Lemma get_media_for_inline_photos_first_witness :
  ∃ s', get_media_for_inline Sample.W (Sample.inline_update "q")
          [Sample.video "https://video.twimg.com/gone.mp4";
           Sample.photo "https://pbs.twimg.com/media/two.jpg"] Sample.s0
        = (Ok [InlineQueryResultPhoto "https://pbs.twimg.com/media/two.jpg"
                                      "https://pbs.twimg.com/media/two.jpg"], s')
        ∧ calls s' = [] ∧ counted 1 Sample.s0 s'.
Proof.
  exact (get_media_for_inline_photos_first Sample.W (Sample.inline_update "q")
           [Sample.video "https://video.twimg.com/gone.mp4";
            Sample.photo "https://pbs.twimg.com/media/two.jpg"]
           ["https://pbs.twimg.com/media/two.jpg"] Sample.s0
           ltac:(repeat constructor; by eexists)
           ltac:(repeat constructor; eexists; split; reflexivity)
           ltac:(discriminate)).
Defined.

(** ** Resetting and composing the counters *)

(** X20: a reset puts all three counters at zero, whatever they were, and
    it does so even when the confirmation cannot be sent (no message to
    reply to, or the transport rejects the text); the first increment
    after a reset leaves the named counter at 1 and the others at 0. *)
Theorem reset_stats_command_zeroes (W : World) (u : Update) (s : state) :
  let s1 := snd (reset_stats_command W u s) in
  (∀ k, counter s1 k = 0%Z)
  ∧ is_Some (stats s1)
  ∧ ∀ c k, counter (snd (increase_context_counter c s1)) k
           = (if decide (k = c) then 1 else 0)%Z.
Proof.
  unfold reset_stats_command, bind, init_stats, tg.
  destruct (effective_message u); simpl;
    (split_and!; [by intros []|by eexists|]);
    intros c k; unfold increase_context_counter, bind, counter; simpl;
    case_decide; by destruct k.
Qed.

(** X21: increments compose by addition and commute: after two increments
    in either order every counter has grown by the number of times it was
    named, and nothing was sent. *)
Theorem increments_commute (a b : ContextCounters) (s : state) :
  ∃ s1 s2,
    bind (increase_context_counter a) (λ _, increase_context_counter b) s = (Ok tt, s1)
    ∧ bind (increase_context_counter b) (λ _, increase_context_counter a) s = (Ok tt, s2)
    ∧ calls s1 = calls s ∧ calls s2 = calls s
    ∧ ∀ k, counter s1 k = counter s2 k
           ∧ counter s1 k
             = (counter s k + (if decide (k = a) then 1 else 0)
                            + (if decide (k = b) then 1 else 0))%Z.
Proof.
  unfold bind.
  destruct (increase_context_counter_counts a s) as (sa & -> & Hca & Ha).
  destruct (increase_context_counter_counts b sa) as (sab & -> & Hcab & Hab).
  destruct (increase_context_counter_counts b s) as (sb & -> & Hcb & Hb).
  destruct (increase_context_counter_counts a sb) as (sba & -> & Hcba & Hba).
  exists sab, sba. split_and!; [done|done|congruence|congruence|].
  intros k. rewrite Hab, Ha, Hba, Hb. split; lia.
Qed.

(** ** The handler's check and the extractor's pattern *)

Section Agreement.

Implicit Types (s t r w : string) (cls : ascii → bool).

Lemma append_assoc s t r : (s +:+ t) +:+ r = s +:+ (t +:+ r).
Proof.
  induction s as [|c s IH]; [done|].
  change (String c ((s +:+ t) +:+ r) = String c (s +:+ (t +:+ r))). by f_equal.
Qed.

Lemma is_word_is_dot (c : ascii) : Re.is_word c = true → Re.is_dot c = true.
Proof.
  intros H. unfold Re.is_dot. destruct (N.eqb_spec (Re.code c) 10) as [E|]; [|done].
  unfold Re.is_word, Re.is_alnum, Re.is_digit, Re.between in H.
  rewrite E in H. done.
Qed.

Lemma all_chars_impl cls (cls' : ascii → bool) w :
  (∀ c, cls c = true → cls' c = true) →
  all_chars cls w = true → all_chars cls' w = true.
Proof.
  intros Himpl. induction w as [|c w IH]; [done|]. simpl.
  intros [Hc Hw]%andb_prop. by rewrite (Himpl c Hc), IH.
Qed.

(** A greedy run stops where the class stops. *)
Lemma upto_prefix n cls w c r :
  all_chars cls w = true →
  (String.length w ≤ n)%nat →
  cls c = false →
  Re.upto n cls (w +:+ String c r) = (w, String c r).
Proof.
  revert n. induction w as [|a w IH]; intros n Hall Hlen Hc.
  - destruct n; simpl; [done|]. by rewrite Hc.
  - simpl in Hall. apply andb_prop in Hall as [Ha Hw].
    destruct n as [|n]; [simpl in Hlen; lia|].
    change (Re.upto (S n) cls (String a (w +:+ String c r)) = (String a w, String c r)).
    simpl. rewrite Ha, IH; [done|done| |done]. simpl in Hlen. lia.
Qed.

Lemma many_prefix cls w c r :
  all_chars cls w = true →
  cls c = false →
  Re.many cls (w +:+ String c r) = (w, String c r).
Proof.
  intros Hall Hc. unfold Re.many. apply upto_prefix; [done| |done].
  rewrite length_append. lia.
Qed.

(** The run of [.] can stop wherever the rest of the pattern matches. *)
Lemma dots_reach n w r :
  all_chars Re.is_dot w = true →
  (String.length w ≤ n)%nat →
  is_Some (Re.kind_id r) →
  is_Some (Re.dots n (w +:+ r)).
Proof.
  revert n. induction w as [|a w IH]; intros n Hall Hlen Hr.
  - change ("" +:+ r) with r.
    destruct n as [|n], r as [|c r]; simpl; try done.
    destruct (Re.is_dot c); [|done].
    unfold Re.orelse. by destruct (Re.dots n r).
  - simpl in Hall. apply andb_prop in Hall as [Ha Hw].
    destruct n as [|n]; [simpl in Hlen; lia|].
    change (is_Some (Re.dots (S n) (String a (w +:+ r)))).
    simpl. rewrite Ha. unfold Re.orelse.
    destruct (IH n Hw ltac:(simpl in Hlen; lia) Hr) as [x ->]. by eexists.
Qed.

Lemma orelse_is_Some_l {A} (x y : option A) : is_Some x → is_Some (Re.orelse x y).
Proof. by intros [a ->]. Qed.

(** A match somewhere in the text makes [re.findall] return something. *)
Lemma findall_from_nonempty (at_ : string → option (string * string)) pre suf :
  is_Some (at_ suf) → suf ≠ "" → Re.findall_from at_ 0 (pre +:+ suf) ≠ [].
Proof.
  intros [[g r] Hm] Hne. induction pre as [|c pre IH].
  - change ("" +:+ suf) with suf. destruct suf as [|c suf]; [done|].
    simpl. by rewrite Hm.
  - change (Re.findall_from at_ 0 (String c (pre +:+ suf)) ≠ []).
    simpl. by destruct (at_ (String c (pre +:+ suf))) as [[g' r']|].
Qed.

Lemma slash_id_digit (d : ascii) r :
  Re.is_digit d = true → is_Some (Re.slash_id ("/" +:+ String d r)).
Proof.
  intros Hd.
  change (is_Some
            (let '(d0, r0) :=
               (if Re.is_digit d
                then let '(t, r0) := Re.upto 19 Re.is_digit r in (String d t, r0)
                else ("", String d r)) in
             match d0 with
             | EmptyString => None
             | _ => Some (d0, r0)
             end)).
  rewrite Hd. destruct (Re.upto 19 Re.is_digit r). by eexists.
Qed.

Lemma kind_id_reach kind (d : ascii) r :
  kind = "status" ∨ kind = "web" →
  Re.is_digit d = true →
  is_Some (Re.kind_id ("/" +:+ kind +:+ "/" +:+ String d r)).
Proof.
  intros Hkind Hd. destruct Hkind as [-> | ->].
  - change (is_Some (Re.slash_id ("/" +:+ String d r))). by apply slash_id_digit.
  - change (is_Some (Re.orelse (Re.slash_id ("/" +:+ String d r)) None)).
    by apply orelse_is_Some_l, slash_id_digit.
Qed.

Lemma id_at_reach host w kind (d : ascii) r :
  host = "twitter" ∨ host = "x" →
  kind = "status" ∨ kind = "web" →
  all_chars Re.is_word w = true →
  (1 ≤ String.length w ≤ 15)%nat →
  Re.is_digit d = true →
  is_Some (Re.id_at (host +:+ ".com/" +:+ w +:+ "/" +:+ kind +:+ "/" +:+ String d r)).
Proof.
  intros Hhost Hkind Hw Hlen Hd.
  destruct w as [|a w]; [simpl in Hlen; lia|].
  simpl in Hw. apply andb_prop in Hw as [Ha Hw].
  pose proof (dots_reach 14 w ("/" +:+ kind +:+ "/" +:+ String d r)
                (all_chars_impl _ _ w is_word_is_dot Hw)
                ltac:(simpl in Hlen; lia)
                (kind_id_reach kind d r Hkind Hd)) as [x Hx].
  set (tail := "/" +:+ kind +:+ "/" +:+ String d r) in *.
  assert (is_Some (if Re.is_dot a then Re.dots 14 (w +:+ tail) else None)) as Huser.
  { rewrite (is_word_is_dot a Ha), Hx. by eexists. }
  destruct Hhost as [-> | ->].
  - unfold Re.id_at. cbv zeta. apply orelse_is_Some_l. exact Huser.
  - exact Huser.
Qed.

End Agreement.

Lemma correct_twitter_pattern_shape (https www : bool) (host kind w : string)
    (d : ascii) (rest : string) :
  host = "twitter" ∨ host = "x" →
  kind = "status" ∨ kind = "web" →
  all_chars Re.is_word w = true →
  (1 ≤ String.length w)%nat →
  Re.is_digit d = true →
  Re.correct_twitter_pattern
    ((if https then "https" else "http") +:+ "://"
     +:+ (if www then "www" else "") +:+ host +:+ ".com/"
     +:+ w +:+ "/" +:+ kind +:+ "/" +:+ String d rest) = true.
Proof.
  intros Hhost Hkind Hw Hlen Hd.
  assert (Hmany : ∀ r, Re.many Re.is_word (w +:+ "/" +:+ r) = (w, String "/" r)).
  { intros r. by apply many_prefix. }
  destruct w as [|a w']; [simpl in Hlen; lia|].
  destruct https, www, Hhost as [-> | ->], Hkind as [-> | ->];
    match goal with |- context [String a w' +:+ "/" +:+ ?r] =>
      specialize (Hmany r); set (X := String a w' +:+ "/" +:+ r) in *
    end;
    clearbody X; cbv -[Re.many Re.is_word Re.is_digit orb];
    rewrite Hmany; cbv -[Re.is_digit orb]; rewrite Hd; reflexivity.
Qed.

(** X22: every URL of the shape the command handler accepts (scheme,
    optional [www], [twitter.com] or [x.com], a user name of word
    characters, [status] or [web], a digit) passes the handler's check;
    and when the user name has at most 15 characters the extractor finds
    an identifier in it, so the handler's loop has a list to run over.
    Longer user names are where the two patterns part. *)
Theorem valid_url_has_identifier (W : World) (https www : bool)
    (host kind w : string) (d : ascii) (rest : string) :
  host = "twitter" ∨ host = "x" →
  kind = "status" ∨ kind = "web" →
  all_chars Re.is_word w = true →
  (1 ≤ String.length w)%nat →
  Re.is_digit d = true →
  let url := (if https then "https" else "http") +:+ "://"
             +:+ (if www then "www" else "") +:+ host +:+ ".com/"
             +:+ w +:+ "/" +:+ kind +:+ "/" +:+ String d rest in
  Re.correct_twitter_pattern url = true
  ∧ ((String.length w ≤ 15)%nat → ∃ ids, extract_tweet_ids W url = Some ids).
Proof.
  intros Hhost Hkind Hw Hlen Hd url. split.
  - by apply correct_twitter_pattern_shape.
  - intros Hlen15.
    assert (matched_ids W url ≠ []) as Hne.
    { unfold matched_ids, Re.findall_ids.
      set (U := unshortened_links W url).
      set (pre := (if https then "https" else "http") +:+ "://"
                  +:+ (if www then "www" else "")).
      replace (url +:+ U)
        with (pre +:+ (host +:+ ".com/" +:+ w +:+ "/" +:+ kind +:+ "/"
                       +:+ String d (rest +:+ U))).
      - apply findall_from_nonempty.
        + by apply id_at_reach.
        + destruct Hhost as [-> | ->]; done.
      - unfold url, pre. rewrite !append_assoc. done. }
    unfold extract_tweet_ids.
    destruct (fromkeys (matched_ids W url)) as [|id ids] eqn:E; [|by eexists].
    by apply fromkeys_nil_inv in E.
Qed.

Lemma valid_url_has_identifier_witness :
  Re.correct_twitter_pattern "https://wwwx.com/alice_01/web/42?s=20" = true
  ∧ ∃ ids, extract_tweet_ids Sample.W "https://wwwx.com/alice_01/web/42?s=20" = Some ids.
Proof.
  pose proof (valid_url_has_identifier Sample.W true true "x" "web" "alice_01"
                "4"%char "2?s=20" ltac:(by right) ltac:(by right) eq_refl
                ltac:(simpl; lia) eq_refl) as [H1 H2].
  split; [exact H1|]. apply H2. simpl. lia.
Defined.

(** X23: when the size probe of every video reports a length (and the
    videos within the limit have a thumbnail), the inline resolver returns
    one result per video, in source order, a video result up to 20 MiB and
    the "too big" article above; it sends nothing and counts every
    video. *)
Theorem get_videos_all (W : World) (u : Update) (videos : list descriptor)
    (results : list InlineQueryResult) (s : state) :
  Forall2 (video_result W) videos results →
  ∃ s', get_videos W u videos s = (Ok results, s')
        ∧ calls s' = calls s
        ∧ counted (Z.of_nat (length videos)) s s'.
Proof.
  intros H. unfold get_videos.
  destruct (for_acc_collect (video_result W) id (get_videos_body W u)) with
    (xs := videos) (ys := results) (acc := @nil InlineQueryResult) (s := s)
    as (s' & Hrun & Hc & Hn); [|done|].
  - intros video r acc s0 (url & n & Hurl & Hsize & Hr).
    unfold get_videos_body, bind, lift, try_except, getitem. rewrite Hurl, Hsize.
    simpl. destruct (n <=? size_limit)%Z.
    + destruct Hr as (th & -> & ->). simpl.
      destruct (increase_media_counted s0) as (s1 & -> & ? & ?). eauto.
    + subst r. simpl.
      destruct (increase_media_counted s0) as (s1 & -> & ? & ?). eauto.
  - exists s'. rewrite Hrun. simpl. by rewrite map_id.
Qed.

Lemma get_videos_all_witness :
  ∃ s', get_videos Sample.W (Sample.inline_update "q")
          [Sample.video "https://video.twimg.com/big.mp4";
           Sample.video "https://video.twimg.com/fits.mp4"] Sample.s0
        = (Ok [InlineQueryResultArticle "Video too big!" "Video too big";
               InlineQueryResultVideo "https://video.twimg.com/fits.mp4.jpg"
                 "https://video.twimg.com/fits.mp4" "Video" "video/mp4"], s')
        ∧ calls s' = [] ∧ counted 2 Sample.s0 s'.
Proof.
  exact (get_videos_all Sample.W (Sample.inline_update "q")
           [Sample.video "https://video.twimg.com/big.mp4";
            Sample.video "https://video.twimg.com/fits.mp4"]
           [InlineQueryResultArticle "Video too big!" "Video too big";
            InlineQueryResultVideo "https://video.twimg.com/fits.mp4.jpg"
              "https://video.twimg.com/fits.mp4" "Video" "video/mp4"]
           Sample.s0
           ltac:(repeat constructor;
                 [exists "https://video.twimg.com/big.mp4", (20 * 1024 * 1024 + 1)%Z
                 |exists "https://video.twimg.com/fits.mp4", (20 * 1024 * 1024)%Z];
                 (split_and!; [reflexivity..|]); simpl; eauto)).
Defined.

(** ** Where the two patterns part: long user names *)

Section LongUser.

Implicit Types (s t r w pre m : string) (cls : ascii → bool).

Lemma all_chars_app cls s t :
  all_chars cls (s +:+ t) = all_chars cls s && all_chars cls t.
Proof.
  induction s as [|c s IH]; [done|].
  change (cls c && all_chars cls (s +:+ t) = cls c && all_chars cls s && all_chars cls t).
  rewrite IH. by destruct (cls c).
Qed.

Lemma cons_eq_app (c : ascii) s pre t :
  String c s = pre +:+ t →
  (pre = "" ∧ t = String c s) ∨ ∃ pre', pre = String c pre' ∧ s = pre' +:+ t.
Proof.
  destruct pre as [|a pre'].
  - change ("" +:+ t) with t. intros <-. by left.
  - change (String a pre' +:+ t) with (String a (pre' +:+ t)).
    intros [= <- ->]. right. by eexists.
Qed.

Lemma app_eq_app s t pre r :
  s +:+ t = pre +:+ r →
  (∃ m, s = pre +:+ m ∧ m ≠ "" ∧ r = m +:+ t) ∨ (∃ m, t = m +:+ r).
Proof.
  revert pre. induction s as [|c s IH]; intros pre.
  - change ("" +:+ t) with t. intros ->. right. by eexists.
  - change (String c s +:+ t) with (String c (s +:+ t)).
    intros [[-> ->]|(pre' & -> & H)]%cons_eq_app.
    + left. by exists (String c s).
    + destruct (IH pre' H) as [(m & -> & Hm & ->)|Hr]; [left|by right].
      by exists m.
Qed.

(** No match at any position: [re.findall] returns nothing. *)
Lemma findall_from_nil (at_ : string → option (string * string)) s skip :
  (∀ pre t, s = pre +:+ t → at_ t = None) →
  Re.findall_from at_ skip s = [].
Proof.
  revert skip. induction s as [|c s IH]; intros skip Hnone; [done|].
  assert (∀ pre t, s = pre +:+ t → at_ t = None) as Htail.
  { intros pre t ->. by apply (Hnone (String c pre)). }
  simpl. destruct skip as [|k]; [|by apply IH].
  rewrite (Hnone "" (String c s)) by done. by apply IH.
Qed.

(** Both patterns need a full stop in what they match. *)
Lemma no_dot_no_match t :
  all_chars not_dot t = true → Re.id_at t = None ∧ Re.tco_at t = None.
Proof.
  intros Hno. split.
  - destruct (Re.id_at t) as [[g r]|] eqn:E; [exfalso|done].
    unfold Re.id_at in E. cbv zeta in E.
    apply orelse_Some in E as [E|[_ E]];
      apply andthen_Some in E as (s2 & E & _);
      apply andthen_Some in E as (s1 & ->%lit_Some & ->%lit_Some);
      rewrite !all_chars_app in Hno; done.
  - unfold Re.tco_at. destruct (Re.lit "t.co/" t) as [s1|] eqn:E; [exfalso|done].
    apply lit_Some in E as ->. rewrite all_chars_app in Hno. done.
Qed.

Lemma is_word_not_dot (c : ascii) : Re.is_word c = true → not_dot c = true.
Proof.
  intros H. unfold not_dot. destruct (Ascii.eqb_spec c ".") as [->|]; done.
Qed.

Lemma is_digit_not_dot (c : ascii) : Re.is_digit c = true → not_dot c = true.
Proof.
  intros H. unfold not_dot. destruct (Ascii.eqb_spec c ".") as [->|]; done.
Qed.

(** With more word characters ahead than the run may take, the rest of
    the pattern is never reached. *)
Lemma dots_none n w t :
  all_chars Re.is_word w = true →
  (n < String.length w)%nat →
  Re.dots n (w +:+ t) = None.
Proof.
  assert (Hkind : ∀ a s, Re.is_word a = true → Re.kind_id (String a s) = None).
  { intros a s Ha. unfold Re.kind_id.
    change (Re.lit "/" (String a s)) with (if Ascii.eqb "/" a then Some s else None).
    destruct (Ascii.eqb_spec "/" a) as [<-|]; done. }
  revert w. induction n as [|n IH]; intros w Hw Hlen;
    (destruct w as [|a w]; [simpl in Hlen; lia|]);
    simpl in Hw; apply andb_prop in Hw as [Ha Hw];
    change (String a w +:+ t) with (String a (w +:+ t)).
  - by apply Hkind.
  - simpl. rewrite (is_word_is_dot a Ha), Hkind by done.
    rewrite IH; [done|done|]. simpl in Hlen. lia.
Qed.

End LongUser.

Lemma nil_eq_app (pre m : string) : "" = pre +:+ m → m = "".
Proof. by destruct pre, m. Qed.

(** Every non-empty end [m] of the concrete text named by [H] (which says
    the text is [pre +:+ m]) is tried in turn. *)
Ltac each_suffix H :=
  repeat (apply cons_eq_app in H as [[-> ->]|(? & -> & H)]; [|]);
  try (apply nil_eq_app in H; congruence).

(** X24: a URL of the accepted shape whose user name has 16 or more
    characters (and no full stop after the identifier) passes the
    handlers' check, yet the extractor finds no identifier in it; the
    command handler and the inline handler then raise [TypeError] before
    sending or counting anything. *)
Theorem long_user_name_has_no_identifier (W : World) (https www : bool)
    (host kind w : string) (d : ascii) (rest : string) :
  host = "twitter" ∨ host = "x" →
  kind = "status" ∨ kind = "web" →
  all_chars Re.is_word w = true →
  (16 ≤ String.length w)%nat →
  Re.is_digit d = true →
  all_chars not_dot rest = true →
  let url := (if https then "https" else "http") +:+ "://"
             +:+ (if www then "www" else "") +:+ host +:+ ".com/"
             +:+ w +:+ "/" +:+ kind +:+ "/" +:+ String d rest in
  Re.correct_twitter_pattern url = true
  ∧ extract_tweet_ids W url = None
  ∧ (∀ u args s, grab_command W u (url :: args) s = (Raise TypeError, s))
  ∧ (∀ u s, inline_query_text u = Some url →
            inline_query W u s = (Raise TypeError, s)).
Proof.
  intros Hhost Hkind Hw Hlen Hd Hrest. cbv zeta.
  set (X := w +:+ "/" +:+ kind +:+ "/" +:+ String d rest).
  set (url := _ +:+ "://" +:+ _ +:+ host +:+ ".com/" +:+ X).
  assert (Re.correct_twitter_pattern url = true) as Hpat.
  { apply correct_twitter_pattern_shape; try done. lia. }
  assert (all_chars not_dot X = true) as Hno.
  { unfold X. rewrite !all_chars_app.
    rewrite (all_chars_impl _ _ w is_word_not_dot Hw).
    change (all_chars not_dot (String d rest))
      with (not_dot d && all_chars not_dot rest).
    rewrite (is_digit_not_dot d Hd), Hrest.
    by destruct Hkind as [-> | ->]. }
  assert (match X with
          | String c s2 => if Re.is_dot c then Re.dots 14 s2 else None
          | EmptyString => None
          end = None) as Huser.
  { unfold X. destruct w as [|a w']; [simpl in Hlen; lia|].
    simpl in Hw. apply andb_prop in Hw as [Ha Hw].
    change (String a w' +:+ ?t) with (String a (w' +:+ t)). cbv iota.
    rewrite (is_word_is_dot a Ha). apply dots_none; [done|]. simpl in Hlen. lia. }
  assert (Hsuffix : ∀ pre t, X = pre +:+ t → Re.id_at t = None ∧ Re.tco_at t = None).
  { intros pre t HX. apply no_dot_no_match. rewrite HX, all_chars_app in Hno.
    by apply andb_prop in Hno as [_ ?]. }
  clearbody X.
  assert (Hnone : ∀ pre t, url = pre +:+ t → Re.id_at t = None ∧ Re.tco_at t = None).
  { intros pre t Hurl.
    assert (∃ P, url = P +:+ X ∧
              ∀ pre m, P = pre +:+ m → m ≠ "" →
                Re.id_at (m +:+ X) = None ∧ Re.tco_at (m +:+ X) = None)
      as (P & HP & Hprefix).
    { clear Hurl Hpat. unfold url.
      destruct https, www, Hhost as [-> | ->];
        match goal with
        | |- ∃ P, ?a +:+ "://" +:+ ?b +:+ ?h +:+ ".com/" +:+ X = _ ∧ _ =>
            let p := eval vm_compute in (a +:+ "://" +:+ b +:+ h +:+ ".com/") in
            exists p
        end;
        (split; [reflexivity|]);
        intros pre0 m HPm Hm; each_suffix HPm;
        (split; [|reflexivity]);
        first [ reflexivity
              | exact Huser
              | change (Re.orelse
                          match X with
                          | String c s2 => if Re.is_dot c then Re.dots 14 s2 else None
                          | EmptyString => None
                          end None = None);
                by rewrite Huser ]. }
    rewrite HP in Hurl. apply app_eq_app in Hurl as [(m & HPm & Hm & ->)|[m HX]].
    - by eapply Hprefix.
    - by eapply Hsuffix. }
  assert (extract_tweet_ids W url = None) as Hids.
  { assert (Re.findall_tco url = []) as Htco.
    { apply findall_from_nil. intros pre t Ht. by apply (Hnone pre t). }
    unfold extract_tweet_ids, matched_ids, unshortened_links.
    rewrite Htco. simpl. rewrite append_nil_r.
    unfold Re.findall_ids. rewrite findall_from_nil; [done|].
    intros pre t Ht. by apply (Hnone pre t). }
  split_and!; [done..| |].
  - intros u args s. by apply grab_command_no_identifier.
  - intros u s Hq. rewrite (inline_query_unanswered W u url s Hq Hids).
    rewrite decide_False; [done|]. intros E. by rewrite E in Hpat.
Qed.

Lemma long_user_name_has_no_identifier_witness :
  grab_command Sample.W Sample.command_update
    ["http://twitter.com/a_very_long_user_name/status/1234567890?s=20"] Sample.s0
  = (Raise TypeError, Sample.s0).
Proof.
  exact (proj1 (proj2 (proj2 (long_user_name_has_no_identifier Sample.W false false
           "twitter" "status" "a_very_long_user_name" "1"%char "234567890?s=20"
           ltac:(by left) ltac:(by left) eq_refl ltac:(simpl; lia) eq_refl eq_refl)))
         Sample.command_update [] Sample.s0).
Defined.

(** ** Links that stand one per line *)

Section Lines.

Implicit Types (s t r w m pre d : string) (cls : ascii → bool) (l : line).






Lemma is_digit_nl : Re.is_digit (Ascii.ascii_of_nat 10) = false.
Proof. reflexivity. Qed.













Section Findall.

Context (at_ : string → option (string * string)).




End Findall.




End Lines.



